(** * Shallow embedding of the anonify scoring engine

    This development models [src/anonify/analysis/scoring.py]
    ([AnonymizationScorer]) and proves properties of its column-type
    classifier, its distance metrics and its global score.

    Modelling conventions.
    - Python floats are modelled as exact rationals [Q]; float rounding is
      not modelled.  [np.sqrt] is modelled by [py_sqrt], a rational upper
      approximation to 1e-9 that is exact on squares of rationals with a
      small denominator.
    - A cell is a [value]: missing ([None]/[NaN]), a number, or a string.
    - A pandas [Series] with its default [RangeIndex] is a [column]; the
      result of [dropna] keeps the row labels, because [pd.crosstab] aligns
      its two arguments on those labels.
    - A [DataFrame] is a row count and a list of named columns; frames read
      with [pd.read_csv] (as [main.py] does) have pairwise distinct column
      names, which [wf_frame] records.
    - Library calls ([pd.crosstab], [scipy.stats.chi2_contingency],
      [scipy.stats.wasserstein_distance], [scipy.stats.ks_2samp],
      [difflib.SequenceMatcher.ratio]) are modelled by their definitions. *)

From Stdlib Require Import QArith Qround Qabs ZArith Lia Lqa Bool List.
From Stdlib Require Import Ascii String.
From Stdlib Require Import Sorting.Mergesort Sorting.Sorted.
From stdpp Require Import base gmap strings.
Import ListNotations.

Open Scope Q_scope.

(** ** Python helpers on numbers *)

(** Python's [min(a, b)]: the first argument unless the second is smaller. *)
Definition py_min (a b : Q) : Q := if Qle_bool a b then a else b.

(** Python's [max(a, b)]: the first argument unless the second is larger. *)
Definition py_max (a b : Q) : Q := if Qle_bool b a then a else b.

Definition Qlt_bool (a b : Q) : bool := negb (Qle_bool b a).

Definition QofN (n : nat) : Q := inject_Z (Z.of_nat n).

(** [np.sqrt]: upper rational approximation with precision 1e-9.
    sqrt(p/q) = sqrt(p*q)/q, computed on p*q*10^18. *)
Definition py_sqrt (x : Q) : Q :=
  Qmake (Z.sqrt_up (Qnum x * Zpos (Qden x) * 10 ^ 18))
        (Qden x * 10 ^ 9)%positive.

(** [np.mean] of a non-empty list. *)
Definition q_sum (l : list Q) : Q := fold_right Qplus 0 l.
Definition np_mean (l : list Q) : Q := q_sum l / QofN (length l).

(** ** Cells and columns *)

Inductive value :=
| VNone
| VNum (q : Q)
| VStr (s : string).

Definition column := list value.

(** Equality of hashed Python values ([set], [unique], [groupby]):
    numbers by value ([1 == 1.0]), strings by content, never a number
    with a string. *)
Definition value_eqb (v w : value) : bool :=
  match v, w with
  | VNone, VNone => true
  | VNum a, VNum b => Qeq_bool a b
  | VStr a, VStr b => String.eqb a b
  | _, _ => false
  end.

Definition is_missing (v : value) : bool :=
  match v with VNone => true | _ => false end.

(** [series.dropna()]: the non-missing cells with their row labels. *)
Definition labelled := list (nat * value).

Fixpoint dropna_from (i : nat) (c : column) : labelled :=
  match c with
  | [] => []
  | v :: t => if is_missing v then dropna_from (S i) t
              else (i, v) :: dropna_from (S i) t
  end.

Definition dropna (c : column) : labelled := dropna_from 0 c.

Definition vals (l : labelled) : list value := map snd l.

(** [x in s] for a list used as a hashed collection. *)
Definition memv (v : value) (s : list value) : bool :=
  existsb (value_eqb v) s.

(** [series.unique()] (first occurrences, in order), also used for
    [set(...)] since only sizes and memberships of sets are observed. *)
Definition uniq_step (acc : list value) (v : value) : list value :=
  if memv v acc then acc else acc ++ [v].

Definition uniq_acc (acc l : list value) : list value :=
  fold_left uniq_step l acc.

Definition unique (l : list value) : list value := uniq_acc [] l.

(** ** Numeric coercion ([pd.to_numeric], [astype(float)])

    A string is accepted when it is a decimal literal: an optional sign,
    digits, and an optional fractional part, with at least one digit.
    (pandas also accepts exponents and [inf]/[nan]; these are not
    modelled.) *)

Definition digit_val (c : ascii) : option Z :=
  let n := nat_of_ascii c in
  if (48 <=? n)%nat && (n <=? 57)%nat then Some (Z.of_nat (n - 48)) else None.

(** Digits accumulated as [(value, number of digits)]. *)
Fixpoint parse_digits (l : list ascii) (acc : Z) (k : nat)
  : Z * nat * list ascii :=
  match l with
  | c :: t =>
      match digit_val c with
      | Some d => parse_digits t (acc * 10 + d)%Z (S k)
      | None => (acc, k, l)
      end
  | [] => (acc, k, [])
  end.

Definition parse_unsigned (l : list ascii) : option Q :=
  match parse_digits l 0 0 with
  | (ip, ni, rest) =>
      match rest with
      | [] => if (ni =? 0)%nat then None else Some (inject_Z ip)
      | c :: t =>
          if Ascii.eqb c "."%char then
            match parse_digits t 0 0 with
            | (fp, nf, []) =>
                if (ni + nf =? 0)%nat then None
                else Some (inject_Z ip + Qmake fp (Pos.of_nat (10 ^ nf)))
            | _ => None
            end
          else None
      end
  end.

Definition parse_number (s : string) : option Q :=
  match list_ascii_of_string s with
  | c :: t =>
      if Ascii.eqb c "-"%char then option_map Qopp (parse_unsigned t)
      else if Ascii.eqb c "+"%char then parse_unsigned t
      else parse_unsigned (c :: t)
  | [] => None
  end.

Definition to_number (v : value) : option Q :=
  match v with
  | VNum q => Some q
  | VStr s => parse_number s
  | VNone => None
  end.

(** [pd.to_numeric(series)] / [series.astype(float)] on cleaned cells:
    [None] when some cell does not parse (the call raises). *)
Fixpoint to_numeric (l : list value) : option (list Q) :=
  match l with
  | [] => Some []
  | v :: t =>
      match to_number v, to_numeric t with
      | Some q, Some qs => Some (q :: qs)
      | _, _ => None
      end
  end.

(** ** [detect_column_type] (scoring.py lines 268-296) *)

Inductive column_type := Categorical | Numerical | Text.

Definition detect_column_type (series : column) : column_type :=
  let series_clean := vals (dropna series) in
  match series_clean with
  | [] => Categorical
  | _ =>
      match to_numeric series_clean with
      | Some _ => Numerical
      | None =>
          let unique_ratio :=
            QofN (length (unique series_clean)) / QofN (length series_clean) in
          if Qlt_bool unique_ratio (1 # 2) then Categorical else Text
      end
  end.

(** ** [jaccard_distance] (scoring.py lines 119-139) *)

Definition jaccard_distance (x y : column) : Q :=
  let set_x := unique (vals (dropna x)) in
  let set_y := unique (vals (dropna y)) in
  if (length set_x =? 0)%nat && (length set_y =? 0)%nat then 0
  else
    let intersection := length (List.filter (fun v => memv v set_y) set_x) in
    let union := length (unique (set_x ++ set_y)) in
    if (0 <? union)%nat then 1 - QofN intersection / QofN union else 1.

(** ** [cramers_v] (scoring.py lines 40-117) *)

(** The value under label [i] of a cleaned series. *)
Fixpoint label_lookup (i : nat) (l : labelled) : option value :=
  match l with
  | [] => None
  | (j, v) :: t => if (i =? j)%nat then Some v else label_lookup i t
  end.

(** [pd.crosstab(x, y)] pairs the two series on the intersection of
    their row labels. *)
Definition align (x y : labelled) : list (value * value) :=
  flat_map (fun p => match label_lookup (fst p) y with
                     | Some w => [(snd p, w)]
                     | None => []
                     end) x.

(** A contingency table: row labels, column labels and counts.  pandas
    sorts the labels; the order of rows and columns does not affect the
    chi-square statistic. *)
Record ctab := {
  ct_rows : list value;
  ct_cols : list value;
  ct_counts : list (list Q)
}.

Definition pair_count (pairs : list (value * value)) (a b : value) : nat :=
  length (List.filter (fun p => value_eqb a (fst p) && value_eqb b (snd p)) pairs).

Definition crosstab (pairs : list (value * value)) : ctab :=
  let rows := unique (map fst pairs) in
  let cols := unique (map snd pairs) in
  {| ct_rows := rows;
     ct_cols := cols;
     ct_counts := map (fun a => map (fun b => QofN (pair_count pairs a b)) cols)
                      rows |}.

Definition ct_size (t : ctab) : nat := length (ct_rows t) * length (ct_cols t).

(** Column sums of a list of rows of length [k]. *)
Fixpoint col_sums (k : nat) (rows : list (list Q)) : list Q :=
  match rows with
  | [] => repeat 0 k
  | r :: t => map (fun p => fst p + snd p) (combine r (col_sums k t))
  end.

Definition sign (d : Q) : Q :=
  if Qlt_bool 0 d then 1 else if Qlt_bool d 0 then -1 else 0.

(** Yates' continuity correction, applied by [chi2_contingency] when the
    table has one degree of freedom: each observed count moves towards its
    expected count by at most 0.5. *)
Definition yates (o e : Q) : Q :=
  let diff := e - o in o + py_min (1 # 2) (Qabs diff) * sign diff.

(** [scipy.stats.chi2_contingency(observed)[0]] (with [correction=True])
    on a table whose row and column sums are positive. *)
Definition chi2_contingency (t : ctab) : Q :=
  let obs := ct_counts t in
  let r := length (ct_rows t) in
  let k := length (ct_cols t) in
  let rs := map q_sum obs in
  let cs := col_sums k obs in
  let n := q_sum rs in
  let expected := map (fun ri => map (fun cj => ri * cj / n) cs) rs in
  let dof := (Z.of_nat (r * k) - Z.of_nat (r + k) + 2 - 1)%Z in
  if (dof =? 0)%Z then 0
  else
    let cells := flat_map (fun p => combine (fst p) (snd p))
                          (combine obs expected) in
    let cells := if (dof =? 1)%Z
                 then map (fun c => (yates (fst c) (snd c), snd c)) cells
                 else cells in
    q_sum (map (fun c => (fst c - snd c) ^ 2 / snd c) cells).

(** [confusion_matrix.sum().sum()] *)
Definition ct_total (t : ctab) : Q := q_sum (map q_sum (ct_counts t)).

(** The bias-corrected coefficient once the table is built, from
    [n = confusion_matrix.sum().sum()] onwards.  The [np.isnan]/[np.isinf]
    test is left out: in exact arithmetic the square root is taken of a
    non-negative number only. *)
Definition cramers_v_table (t : ctab) : Q :=
  let chi2 := chi2_contingency t in
  let n := ct_total t in
  if Qle_bool n 1 then 0
  else
    let r := length (ct_rows t) in
    let k := length (ct_cols t) in
    if (r =? 1)%nat || (k =? 1)%nat then 0
    else
      let rq := QofN r in
      let kq := QofN k in
      let phi2 := chi2 / n in
      let phi2corr := py_max 0 (phi2 - ((kq - 1) * (rq - 1)) / (n - 1)) in
      let rcorr := rq - ((rq - 1) ^ 2) / (n - 1) in
      let kcorr := kq - ((kq - 1) ^ 2) / (n - 1) in
      let denominator := py_min (kcorr - 1) (rcorr - 1) in
      let cv :=
        if Qle_bool denominator 0 then
          let denominator := py_min (kq - 1) (rq - 1) in
          if Qle_bool denominator 0 then None
          else Some (py_sqrt (phi2 / denominator))
        else Some (py_sqrt (phi2corr / denominator)) in
      match cv with
      | None => 0
      | Some cv => py_max 0 (py_min 1 cv)
      end.

(** From the constant-column test onwards (lines 66-114). *)
Definition cramers_v_aligned (x_clean y_clean : labelled) : Q :=
  if (length (unique (vals x_clean)) =? 1)%nat
     || (length (unique (vals y_clean)) =? 1)%nat then 0
  else
    let confusion_matrix := crosstab (align x_clean y_clean) in
    if (ct_size confusion_matrix =? 0)%nat then 0
    else cramers_v_table confusion_matrix.

Definition cramers_v (x y : column) : Q :=
  let x_clean := dropna x in
  let y_clean := dropna y in
  if (length x_clean =? 0)%nat || (length y_clean =? 0)%nat then 0
  else
    let '(x_clean, y_clean) :=
      if negb (length x_clean =? length y_clean)%nat then
        let min_len := Nat.min (length x_clean) (length y_clean) in
        (firstn min_len x_clean, firstn min_len y_clean)
      else (x_clean, y_clean) in
    cramers_v_aligned x_clean y_clean.

(** ** Numerical metrics (scoring.py lines 141-220) *)

Module QLeBool <: Orders.TotalLeBool.
Definition t := Q.
Definition leb := Qle_bool.
Theorem leb_total : forall a1 a2, leb a1 a2 = true \/ leb a2 a1 = true.
Proof.
  intros a b; unfold leb; rewrite !Qle_bool_iff.
  destruct (Qlt_le_dec a b); [left; apply Qlt_le_weak | right]; assumption.
Qed.
End QLeBool.

Module QSort := Sort QLeBool.

(** [np.searchsorted(np.sort(l), t, side='right')]: the number of
    elements of [l] that are at most [t]. *)
Definition count_le (t : Q) (l : list Q) : nat :=
  length (List.filter (fun a => Qle_bool a t) l).

(** Empirical distribution function, [searchsorted(...) / l.size]. *)
Definition ecdf (l : list Q) (t : Q) : Q := QofN (count_le t l) / QofN (length l).

(** [np.sum(np.abs(u_cdf - v_cdf) * np.diff(all_values))] over the sorted
    concatenation [all_values]. *)
Fixpoint cdf_area (u v : list Q) (all_values : list Q) : Q :=
  match all_values with
  | a :: ((b :: _) as t) => Qabs (ecdf u a - ecdf v a) * (b - a) + cdf_area u v t
  | _ => 0
  end.

(** [scipy.stats.wasserstein_distance(u, v)] (unweighted, [_cdf_distance]
    with p = 1). *)
Definition wasserstein_distance (u v : list Q) : Q :=
  cdf_area u v (QSort.sort (u ++ v)).

Definition list_max (l : list Q) : Q :=
  match l with [] => 0 | a :: t => fold_left py_max t a end.
Definition list_min (l : list Q) : Q :=
  match l with [] => 0 | a :: t => fold_left py_min t a end.

Definition np_clip (a lo hi : Q) : Q := py_min (py_max a lo) hi.

(** [scipy.stats.ks_2samp(data1, data2).statistic], two-sided. *)
Definition ks_2samp (data1 data2 : list Q) : Q :=
  let data1 := QSort.sort data1 in
  let data2 := QSort.sort data2 in
  let data_all := data1 ++ data2 in
  let cddiffs := map (fun t => ecdf data1 t - ecdf data2 t) data_all in
  let minS := np_clip (- list_min cddiffs) 0 1 in
  let maxS := list_max cddiffs in
  if Qle_bool minS maxS then maxS else minS.

Definition wasserstein_distance_normalized (x y : column) : Q :=
  match to_numeric (vals (dropna x)), to_numeric (vals (dropna y)) with
  | Some x_clean, Some y_clean =>
      if (length x_clean =? 0)%nat || (length y_clean =? 0)%nat then 1
      else
        let wd := wasserstein_distance x_clean y_clean in
        let x_range := list_max x_clean - list_min x_clean in
        if Qeq_bool x_range 0 then (if Qeq_bool wd 0 then 0 else 1)
        else py_min 1 (wd / x_range)
  | _, _ => 1   (* [astype(float)] raised: the bare [except] returns 1.0 *)
  end.

Definition kolmogorov_smirnov_distance (x y : column) : Q :=
  match to_numeric (vals (dropna x)), to_numeric (vals (dropna y)) with
  | Some x_clean, Some y_clean =>
      if (length x_clean =? 0)%nat || (length y_clean =? 0)%nat then 1
      else ks_2samp x_clean y_clean
  | _, _ => 1
  end.

(** [series.std()] (ddof = 1); [None] stands for the [NaN] pandas returns
    for fewer than two values. *)
Definition pd_std (l : list Q) : option Q :=
  if (length l <=? 1)%nat then None
  else
    let m := np_mean l in
    Some (py_sqrt (q_sum (map (fun a => (a - m) ^ 2) l) / (QofN (length l) - 1))).

Definition mean_shift_distance (x y : column) : Q :=
  match to_numeric (vals (dropna x)), to_numeric (vals (dropna y)) with
  | Some x_clean, Some y_clean =>
      if (length x_clean =? 0)%nat || (length y_clean =? 0)%nat then 1
      else
        let mean_diff := Qabs (np_mean x_clean - np_mean y_clean) in
        match pd_std x_clean with
        | Some x_std =>
            if Qeq_bool x_std 0 then (if Qeq_bool mean_diff 0 then 0 else 1)
            else py_min 1 (mean_diff / x_std)
        | None =>
            (* [NaN == 0] is false and [min(1.0, mean_diff / NaN)] is 1.0 *)
            1
        end
  | _, _ => 1
  end.

(** ** [difflib.SequenceMatcher(None, a, b).ratio()]

    Strings are lists of characters.  [b2j] maps each character of [b] to
    its positions; with the default [autojunk=True], when [len(b) >= 200]
    the characters occurring more than [len(b) // 100 + 1] times
    ("popular") are removed from [b2j].  There is no junk predicate, so the
    two junk-extension loops of [find_longest_match] never run. *)

Definition chars := list ascii.

Definition nth_ch (s : chars) (i : nat) : ascii := nth i s "000"%char.

Definition count_ch (c : ascii) (b : chars) : nat :=
  length (List.filter (Ascii.eqb c) b).

Definition popular (b : chars) (c : ascii) : bool :=
  let n := length b in (200 <=? n)%nat && (n / 100 + 1 <? count_ch c b)%nat.

(** The entry [newj2len[j]] that the loop of [find_longest_match] stores at
    row [i]: the length of the match ending at [a[i]], [b[j]], restricted
    to [alo <= i] and [blo <= j]; it is 0 (no entry) unless [b[j]] is in
    [b2j[a[i]]].  [fuel] bounds the recursion on [i]. *)
Fixpoint run_len (a b : chars) (alo blo : nat) (fuel i j : nat) : nat :=
  match fuel with
  | O => O
  | S f =>
      if Ascii.eqb (nth_ch a i) (nth_ch b j) && negb (popular b (nth_ch b j))
      then S (if (alo <? i)%nat && (blo <? j)%nat
              then run_len a b alo blo f (i - 1) (j - 1) else O)
      else O
  end.

(** The two nested loops: [i] over [range(alo, ahi)], [j] over the
    positions of [a[i]] in [b] within [[blo, bhi)], keeping the first
    strictly longer match. *)
Definition scan_best (a b : chars) (alo ahi blo bhi : nat) : nat * nat * nat :=
  fold_left
    (fun best i =>
       fold_left
         (fun best j =>
            let k := run_len a b alo blo (S i) i j in
            if (snd best <? k)%nat then (i + 1 - k, j + 1 - k, k)%nat else best)
         (seq blo (bhi - blo)) best)
    (seq alo (ahi - alo)) (alo, blo, O).

(** [while besti > alo and bestj > blo and not isbjunk(b[bestj-1])
          and a[besti-1] == b[bestj-1]] *)
Fixpoint extend_back (a b : chars) (alo blo : nat) (fuel : nat)
  (best : nat * nat * nat) : nat * nat * nat :=
  match fuel with
  | O => best
  | S f =>
      let '(i, j, k) := best in
      if (alo <? i)%nat && (blo <? j)%nat
         && Ascii.eqb (nth_ch a (i - 1)) (nth_ch b (j - 1))
      then extend_back a b alo blo f (i - 1, j - 1, S k)%nat
      else best
  end.

(** [while besti+bestsize < ahi and bestj+bestsize < bhi and not
          isbjunk(b[bestj+bestsize]) and a[besti+bestsize] == b[bestj+bestsize]] *)
Fixpoint extend_fwd (a b : chars) (ahi bhi : nat) (fuel : nat)
  (best : nat * nat * nat) : nat * nat * nat :=
  match fuel with
  | O => best
  | S f =>
      let '(i, j, k) := best in
      if (i + k <? ahi)%nat && (j + k <? bhi)%nat
         && Ascii.eqb (nth_ch a (i + k)) (nth_ch b (j + k))
      then extend_fwd a b ahi bhi f (i, j, S k)
      else best
  end.

Definition find_longest_match (a b : chars) (alo ahi blo bhi : nat)
  : nat * nat * nat :=
  let best := scan_best a b alo ahi blo bhi in
  let best := extend_back a b alo blo (fst (fst best)) best in
  extend_fwd a b ahi bhi ahi best.

(** [sum(triple[-1] for triple in self.get_matching_blocks())]: the
    queue of [get_matching_blocks] explores the same ranges as this
    recursion; sorting and merging adjacent blocks keeps the sum. *)
Fixpoint matched (a b : chars) (fuel : nat) (alo ahi blo bhi : nat) : nat :=
  match fuel with
  | O => O
  | S f =>
      let '(i, j, k) := find_longest_match a b alo ahi blo bhi in
      if (k =? 0)%nat then O
      else (k
            + (if (alo <? i)%nat && (blo <? j)%nat
               then matched a b f alo i blo j else O)
            + (if (i + k <? ahi)%nat && (j + k <? bhi)%nat
               then matched a b f (i + k) ahi (j + k) bhi else O))%nat
  end.

Definition seq_ratio (a b : chars) : Q :=
  let la := length a in
  let lb := length b in
  let matches := matched a b (S la) 0 la 0 lb in
  if (la + lb =? 0)%nat then 1 else 2 * QofN matches / QofN (la + lb).

(** ** [str(value)] for [astype(str)]

    Integers in decimal; other rationals as a decimal fraction with at most
    17 fractional digits (Python's shortest round-trip [repr] of floats is
    not modelled). *)

Fixpoint nat_digits (fuel : nat) (z : Z) (acc : chars) : chars :=
  match fuel with
  | O => acc
  | S f =>
      let d := ascii_of_nat (48 + Z.to_nat (z mod 10)) in
      let q := (z / 10)%Z in
      if (q =? 0)%Z then d :: acc else nat_digits f q (d :: acc)
  end.

Definition digits_of (z : Z) : chars :=
  nat_digits (S (Z.to_nat (Z.log2 z))) z [].

Fixpoint frac_digits (fuel : nat) (r d : Z) : chars :=
  match fuel with
  | O => []
  | S f =>
      if (r =? 0)%Z then []
      else ascii_of_nat (48 + Z.to_nat (r * 10 / d)) :: frac_digits f (r * 10 mod d) d
  end.

Definition py_str_num (q : Q) : string :=
  let n := Qnum q in
  let d := Zpos (Qden q) in
  let sgn := if (n <? 0)%Z then ["-"%char] else [] in
  let m := Z.abs n in
  let ip := digits_of (m / d) in
  let fp := frac_digits 17 (m mod d) d in
  string_of_list_ascii
    (sgn ++ ip ++ match fp with [] => [] | _ => "."%char :: fp end).

Definition py_str (v : value) : string :=
  match v with
  | VNone => "None"
  | VNum q => py_str_num q
  | VStr s => s
  end.

(** ** [text_similarity_distance] (scoring.py lines 222-266) *)

Definition str_cells (c : column) : list string := map py_str (vals (dropna c)).

(** "Unique values replacement percentage" (lines 233-241). *)
Definition unique_replacement_dist (x y : column) : Q :=
  let x_unique := unique (map VStr (str_cells x)) in
  let y_unique := unique (map VStr (str_cells y)) in
  if (length x_unique =? 0)%nat then 0
  else
    let common_values := length (List.filter (fun v => memv v y_unique) x_unique) in
    1 - QofN common_values / QofN (length x_unique).

(** "Average string similarity (using difflib)" (lines 243-263). *)
Definition string_similarity_dist (x y : column) : Q :=
  let x_str := str_cells x in
  let y_str := str_cells y in
  if (length x_str =? 0)%nat || (length y_str =? 0)%nat then 1
  else
    let sample_size := Nat.min (Nat.min (length x_str) (length y_str)) 100 in
    let similarities :=
      map (fun i => seq_ratio (list_ascii_of_string (nth i x_str ""%string))
                              (list_ascii_of_string (nth i y_str ""%string)))
          (seq 0 sample_size) in
    let avg_similarity :=
      match similarities with [] => 0 | _ => np_mean similarities end in
    1 - avg_similarity.

Definition text_similarity_distance (x y : column) : Q :=
  np_mean [unique_replacement_dist x y; string_similarity_dist x y].

(** ** [calculate_column_distance] (scoring.py lines 298-329) *)

Definition calculate_column_distance (original anonymized : column) : Q :=
  match detect_column_type original with
  | Categorical =>
      let cramers_distance := 1 - cramers_v original anonymized in
      let jaccard_dist := jaccard_distance original anonymized in
      np_mean [cramers_distance; jaccard_dist]
  | Numerical =>
      let wasserstein_dist := wasserstein_distance_normalized original anonymized in
      let ks_dist := kolmogorov_smirnov_distance original anonymized in
      let mean_shift_dist := mean_shift_distance original anonymized in
      np_mean [wasserstein_dist; ks_dist; mean_shift_dist]
  | Text => text_similarity_distance original anonymized
  end.

(** ** Frames, the scorer and [calculate_global_score] (lines 331-398) *)

Record frame := {
  nrows : nat;
  columns : list (string * column)
}.

Definition shape (f : frame) : nat * nat := (nrows f, length (columns f)).

Definition shape_eqb (f g : frame) : bool :=
  (nrows f =? nrows g)%nat && (length (columns f) =? length (columns g))%nat.

(** A frame as [pd.read_csv] builds it: distinct column names, and every
    column has [nrows] cells. *)
Definition wf_frame (f : frame) : Prop :=
  NoDup (map fst (columns f)) /\ Forall (fun c => length (snd c) = nrows f) (columns f).

(** [df[name]] for a name in [df.columns]. *)
Fixpoint get_column (cols : list (string * column)) (name : string) : option column :=
  match cols with
  | [] => None
  | (n, c) :: t => if String.eqb n name then Some c else get_column t name
  end.

(** [name in df.columns] *)
Definition has_column (cols : list (string * column)) (name : string) : bool :=
  match get_column cols name with Some _ => true | None => false end.

(** [round(x, ndigits)]: round half to even at [ndigits] decimals. *)
Definition round_half_even (x : Q) : Z :=
  let f := Qfloor x in
  let r := x - inject_Z f in
  if Qlt_bool r (1 # 2) then f
  else if Qlt_bool (1 # 2) r then (f + 1)%Z
  else if Z.even f then f else (f + 1)%Z.

Definition py_round (x : Q) (ndigits : nat) : Q :=
  let scale := inject_Z (10 ^ Z.of_nat ndigits) in
  inject_Z (round_half_even (x * scale)) / scale.

Definition interpret_score (score : Q) : string :=
  if Qlt_bool score 20 then "Very Low Anonymization - Data is largely unchanged"
  else if Qlt_bool score 40 then "Low Anonymization - Some changes but patterns remain"
  else if Qlt_bool score 60 then "Moderate Anonymization - Reasonable privacy protection"
  else if Qlt_bool score 80 then "High Anonymization - Strong privacy protection"
  else "Very High Anonymization - Maximum privacy protection".

Record scorer := {
  column_weights : gmap string Q;
  cached_column_scores : list (string * Q);
  cached_global_score : option Q
}.

(** [AnonymizationScorer(column_weights)] *)
Definition new_scorer (w : option (gmap string Q)) : scorer :=
  {| column_weights := match w with Some w => w | None => ∅ end;
     cached_column_scores := [];
     cached_global_score := None |}.

(** [self.column_weights.get(column, 1.0)] *)
Definition weight_of (w : gmap string Q) (column : string) : Q := default 1 (w !! column).

(** One turn of the weighting loop over [(weighted_sum, total_weight)]. *)
Definition weight_step (w : gmap string Q) (acc : Q * Q) (cd : string * Q) : Q * Q :=
  let weight := weight_of w (fst cd) in
  (fst acc + weight * snd cd, snd acc + weight).

Definition weighted_totals (w : gmap string Q) (column_distances : list (string * Q))
  : Q * Q :=
  fold_left (weight_step w) column_distances (0, 0).

Definition global_distance_of (w : gmap string Q)
  (column_distances : list (string * Q)) : Q :=
  let '(weighted_sum, total_weight) := weighted_totals w column_distances in
  if Qlt_bool 0 total_weight then weighted_sum / total_weight else 0.

Record score_result := {
  res_anonify_score : Q;
  res_global_distance : Q;
  res_column_scores : list (string * Q);
  res_column_types : list (string * column_type);
  res_total_columns : nat;
  res_score_interpretation : string
}.

Inductive py_exn := ValueError (msg : string).

(** The scoring loop over [original_df.columns], skipping the names that
    are not in [anonymized_df.columns]. *)
Definition score_step (anonymized_df : frame)
  (acc : list (string * Q) * list (string * column_type)) (nc : string * column)
  : list (string * Q) * list (string * column_type) :=
  match get_column (columns anonymized_df) (fst nc) with
  | Some acol =>
      (fst acc ++ [(fst nc, calculate_column_distance (snd nc) acol)],
       snd acc ++ [(fst nc, detect_column_type (snd nc))])
  | None => acc
  end.

Definition score_columns (original_df anonymized_df : frame)
  : list (string * Q) * list (string * column_type) :=
  fold_left (score_step anonymized_df) (columns original_df) ([], []).

Definition calculate_global_score (self : scorer) (original_df anonymized_df : frame)
  : py_exn + (scorer * score_result) :=
  if negb (shape_eqb original_df anonymized_df) then
    inl (ValueError "Original and anonymized dataframes must have the same shape")
  else
    let '(column_distances, column_types) := score_columns original_df anonymized_df in
    let global_distance := global_distance_of (column_weights self) column_distances in
    let anonify_score := 1 + 99 * global_distance in
    let self' := {| column_weights := column_weights self;
                    cached_column_scores := column_distances;
                    cached_global_score := Some anonify_score |} in
    inr (self',
         {| res_anonify_score := py_round anonify_score 2;
            res_global_distance := py_round global_distance 4;
            res_column_scores :=
              map (fun kv => (fst kv, py_round (snd kv) 4)) column_distances;
            res_column_types := column_types;
            res_total_columns := length column_distances;
            res_score_interpretation := interpret_score anonify_score |}).

(** [quick_score(original_df, anonymized_df, column_weights)] *)
Definition quick_score (original_df anonymized_df : frame)
  (w : option (gmap string Q)) : py_exn + score_result :=
  match calculate_global_score (new_scorer w) original_df anonymized_df with
  | inl e => inl e
  | inr (_, r) => inr r
  end.

(** ** Statements of the specification *)

(** The spec's weighted mean (section 4.4): [sum(weight * distance) /
    sum(weight)] over the scored columns, 0 when there is none. *)
Definition ws_sum (w : gmap string Q) (cds : list (string * Q)) : Q :=
  q_sum (map (fun cd => weight_of w (fst cd) * snd cd) cds).

Definition tw_sum (w : gmap string Q) (cds : list (string * Q)) : Q :=
  q_sum (map (fun cd => weight_of w (fst cd)) cds).


(** The classifier of spec section 4.1, on the cells with missing values
    dropped. *)
Definition parses_as_number (v : value) : bool :=
  match to_number v with Some _ => true | None => false end.

Definition spec_column_type (series : column) : column_type :=
  let c := List.filter (fun v => negb (is_missing v)) series in
  match c with
  | [] => Categorical
  | _ =>
      if forallb parses_as_number c then Numerical
      else if Qlt_bool (QofN (length (unique c)) / QofN (length c)) (1 # 2)
      then Categorical else Text
  end.

Definition interpretations : list string :=
  ["Very Low Anonymization - Data is largely unchanged";
   "Low Anonymization - Some changes but patterns remain";
   "Moderate Anonymization - Reasonable privacy protection";
   "High Anonymization - Strong privacy protection";
   "Very High Anonymization - Maximum privacy protection"]%string.

(** A complete, well-formed [ScoreResult] (spec section 6). *)
Definition wf_result (r : score_result) : Prop :=
  res_total_columns r = length (res_column_scores r) /\
  map fst (res_column_types r) = map fst (res_column_scores r) /\
  Forall (fun kv => 0 <= snd kv <= 1) (res_column_scores r) /\
  0 <= res_global_distance r <= 1 /\
  1 <= res_anonify_score r <= 100 /\
  In (res_score_interpretation r) interpretations.

(** ** Predicates used in the proofs *)

(** Every element of [l] is new with respect to [acc] and to the elements
    before it. *)
Fixpoint fresh (acc l : list value) : bool :=
  match l with
  | [] => true
  | v :: t => negb (memv v acc) && fresh (acc ++ [v]) t
  end.

(** A block [(i, j, k)] lies within [a[alo:ahi]] and [b[blo:bhi]]. *)
Definition block_in (alo ahi blo bhi : nat) (m : nat * nat * nat) : Prop :=
  let '(i, j, k) := m in
  (alo <= i /\ i + k <= ahi /\ blo <= j /\ j + k <= bhi)%nat.

(** * Proofs *)

(** ** Arithmetic helpers *)

Lemma Qlt_bool_iff a b : Qlt_bool a b = true <-> a < b.
Proof.
  unfold Qlt_bool; rewrite negb_true_iff; split; intro H.
  - apply Qnot_le_lt; intro H'; apply Qle_bool_iff in H'; congruence.
  - destruct (Qle_bool b a) eqn:E; [|reflexivity].
    apply Qle_bool_iff in E; exfalso; exact (Qlt_not_le _ _ H E).
Qed.

Lemma Qlt_bool_false a b : Qlt_bool a b = false <-> b <= a.
Proof.
  unfold Qlt_bool; rewrite negb_false_iff; apply Qle_bool_iff.
Qed.

Lemma Qle_bool_false a b : Qle_bool a b = false <-> b < a.
Proof.
  split; intro H.
  - apply Qnot_le_lt; intro H'; apply Qle_bool_iff in H'; congruence.
  - destruct (Qle_bool a b) eqn:E; [|reflexivity].
    apply Qle_bool_iff in E; exfalso; exact (Qlt_not_le _ _ H E).
Qed.

Ltac qbool :=
  repeat match goal with
  | H : Qle_bool _ _ = true |- _ => apply Qle_bool_iff in H
  | H : Qle_bool _ _ = false |- _ => apply Qle_bool_false in H
  | H : Qlt_bool _ _ = true |- _ => apply Qlt_bool_iff in H
  | H : Qlt_bool _ _ = false |- _ => apply Qlt_bool_false in H
  | H : Qeq_bool _ _ = true |- _ => apply Qeq_bool_iff in H
  | H : Qeq_bool _ _ = false |- _ =>
      apply (proj2 (not_true_iff_false _)) in H; rewrite Qeq_bool_iff in H
  end.

Lemma py_min_le_l a b : py_min a b <= a.
Proof. unfold py_min; destruct (Qle_bool a b) eqn:E; qbool; lra. Qed.

Lemma py_min_le_r a b : py_min a b <= b.
Proof. unfold py_min; destruct (Qle_bool a b) eqn:E; qbool; lra. Qed.

Lemma py_min_glb a b c : c <= a -> c <= b -> c <= py_min a b.
Proof. unfold py_min; destruct (Qle_bool a b); auto. Qed.

Lemma py_max_ge_l a b : a <= py_max a b.
Proof. unfold py_max; destruct (Qle_bool b a) eqn:E; qbool; lra. Qed.

Lemma py_max_ge_r a b : b <= py_max a b.
Proof. unfold py_max; destruct (Qle_bool b a) eqn:E; qbool; lra. Qed.

Lemma py_max_lub a b c : a <= c -> b <= c -> py_max a b <= c.
Proof. unfold py_max; destruct (Qle_bool b a); auto. Qed.

Lemma QofN_nonneg n : 0 <= QofN n.
Proof.
  unfold QofN, Qle; simpl; lia.
Qed.

Lemma QofN_le m n : (m <= n)%nat -> QofN m <= QofN n.
Proof.
  intro H; unfold QofN, Qle; simpl; lia.
Qed.

Lemma QofN_pos n : (0 < n)%nat -> 0 < QofN n.
Proof.
  intro H; unfold QofN, Qlt; simpl; lia.
Qed.

Lemma QofN_add m n : QofN (m + n) == QofN m + QofN n.
Proof.
  unfold QofN; rewrite Nat2Z.inj_add, inject_Z_plus; reflexivity.
Qed.

Lemma div_in01 a b : 0 <= a -> a <= b -> 0 <= a / b <= 1.
Proof.
  intros Ha Hab.
  destruct (Qlt_le_dec 0 b) as [Hb|Hb].
  - split.
    + apply Qle_shift_div_l; [exact Hb | lra].
    + apply Qle_shift_div_r; [exact Hb | lra].
  - assert (Ha0 : a == 0) by lra.
    rewrite Ha0; unfold Qdiv; rewrite Qmult_0_l; lra.
Qed.

Lemma div_nonneg a b : 0 <= a -> 0 <= b -> 0 <= a / b.
Proof.
  intros Ha Hb; unfold Qdiv; apply Qmult_le_0_compat; auto.
  apply Qinv_le_0_compat; exact Hb.
Qed.

Lemma one_minus_in01 q : 0 <= q <= 1 -> 0 <= 1 - q <= 1.
Proof. lra. Qed.

Lemma py_min_one_in01 q : 0 <= q -> 0 <= py_min 1 q <= 1.
Proof.
  intro H; split; [apply py_min_glb; lra | apply py_min_le_l].
Qed.

Lemma q_sum_app l1 l2 : q_sum (l1 ++ l2) == q_sum l1 + q_sum l2.
Proof.
  induction l1 as [|a t IH]; simpl; [lra|]. rewrite IH; lra.
Qed.

Lemma q_sum_bounds (l : list Q) :
  Forall (fun q => 0 <= q <= 1) l -> 0 <= q_sum l <= QofN (length l).
Proof.
  induction 1 as [|q t Hq Ht IH]; simpl.
  - split; [apply Qle_refl | apply QofN_nonneg].
  - replace (S (length t)) with (1 + length t)%nat by reflexivity.
    rewrite QofN_add. change (QofN 1) with 1. lra.
Qed.

Lemma np_mean_in01 (l : list Q) :
  Forall (fun q => 0 <= q <= 1) l -> 0 <= np_mean l <= 1.
Proof.
  intro H; unfold np_mean; apply div_in01; apply q_sum_bounds; exact H.
Qed.

Lemma py_sqrt_nonneg x : 0 <= py_sqrt x.
Proof.
  unfold py_sqrt, Qle; simpl.
  pose proof (Z.sqrt_up_nonneg (Qnum x * Z.pos (Qden x) * 10 ^ 18)); lia.
Qed.

(** ** [unique] and set sizes *)

Lemma value_eqb_refl v : value_eqb v v = true.
Proof.
  destruct v; simpl; [reflexivity | apply Qeq_bool_refl | apply String.eqb_refl].
Qed.

Lemma memv_in v s : In v s -> memv v s = true.
Proof.
  intro H; unfold memv; apply existsb_exists; exists v; split;
    [exact H | apply value_eqb_refl].
Qed.

Lemma uniq_acc_app acc l1 l2 :
  uniq_acc acc (l1 ++ l2) = uniq_acc (uniq_acc acc l1) l2.
Proof. unfold uniq_acc; apply fold_left_app. Qed.

Lemma uniq_acc_length acc l : (length acc <= length (uniq_acc acc l))%nat.
Proof.
  revert acc; induction l as [|v t IH]; intro acc; simpl; [lia|].
  unfold uniq_acc in *; simpl.
  specialize (IH (uniq_step acc v)).
  unfold uniq_step in *; destruct (memv v acc); [exact IH|].
  rewrite length_app in IH; simpl in IH; lia.
Qed.


Lemma fresh_uniq_acc acc l : fresh acc l = true -> uniq_acc acc l = acc ++ l.
Proof.
  revert acc; induction l as [|v t IH]; intros acc H; simpl.
  - rewrite app_nil_r; reflexivity.
  - simpl in H; apply andb_true_iff in H as [H1 H2].
    apply negb_true_iff in H1.
    unfold uniq_acc in *; simpl; unfold uniq_step at 2; rewrite H1.
    rewrite (IH _ H2), <- app_assoc; reflexivity.
Qed.

Lemma uniq_acc_fresh acc l :
  exists n, uniq_acc acc l = acc ++ n /\ fresh acc n = true.
Proof.
  revert acc; induction l as [|v t IH]; intro acc.
  - exists []; simpl; rewrite app_nil_r; auto.
  - unfold uniq_acc; simpl; unfold uniq_step at 2.
    destruct (memv v acc) eqn:E.
    + exact (IH acc).
    + destruct (IH (acc ++ [v])) as [n [Hn Hf]].
      exists (v :: n); split.
      * unfold uniq_acc in Hn; rewrite Hn, <- app_assoc; reflexivity.
      * simpl; rewrite E, Hf; reflexivity.
Qed.

Lemma unique_idem l : unique (unique l) = unique l.
Proof.
  unfold unique; destruct (uniq_acc_fresh [] l) as [n [Hn Hf]].
  rewrite Hn; simpl; apply fresh_uniq_acc; exact Hf.
Qed.

(** Adding values already present leaves the accumulator unchanged. *)
Lemma uniq_acc_present acc l :
  (forall v, In v l -> memv v acc = true) -> uniq_acc acc l = acc.
Proof.
  revert acc; induction l as [|v t IH]; intros acc H; [reflexivity|].
  unfold uniq_acc; simpl; unfold uniq_step at 2.
  rewrite (H v (or_introl eq_refl)).
  apply IH; intros w Hw; apply H; right; exact Hw.
Qed.

Lemma unique_union_length sx sy :
  (length (unique sx) <= length (unique (unique sx ++ sy)))%nat.
Proof.
  unfold unique at 2; rewrite uniq_acc_app.
  fold (unique (unique sx)); rewrite unique_idem; apply uniq_acc_length.
Qed.

Lemma length_filter_le {A} (f : A -> bool) l : (length (List.filter f l) <= length l)%nat.
Proof.
  induction l as [|a t IH]; simpl; [lia|]; destruct (f a); simpl; lia.
Qed.

Lemma unique_nil : unique [] = [].
Proof. reflexivity. Qed.

Lemma unique_cons_nonempty v t : unique (v :: t) <> [].
Proof.
  unfold unique; change (uniq_acc [] (v :: t)) with (uniq_acc (uniq_step [] v) t).
  intro H; pose proof (uniq_acc_length (uniq_step [] v) t) as L; rewrite H in L.
  unfold uniq_step in L; simpl in L; lia.
Qed.

(** ** Bounds of the set-overlap and association metrics *)

Lemma jaccard_distance_in01 x y : 0 <= jaccard_distance x y <= 1.
Proof.
  unfold jaccard_distance.
  destruct (_ && _); [lra|].
  destruct (0 <? _)%nat; [|lra].
  apply one_minus_in01, div_in01; [apply QofN_nonneg | apply QofN_le].
  eapply Nat.le_trans; [apply length_filter_le|].
  apply unique_union_length.
Qed.

Lemma clamp01 (o : option Q) :
  0 <= match o with None => 0 | Some cv => py_max 0 (py_min 1 cv) end <= 1.
Proof.
  destruct o as [cv|]; [|lra].
  split; [apply py_max_ge_l | apply py_max_lub; [lra | apply py_min_le_l]].
Qed.

Lemma cramers_v_table_in01 t : 0 <= cramers_v_table t <= 1.
Proof.
  unfold cramers_v_table; cbv zeta.
  destruct (Qle_bool (ct_total t) 1); [lra|].
  destruct (_ || _)%nat; [lra|].
  apply clamp01.
Qed.

Lemma cramers_v_aligned_in01 xc yc : 0 <= cramers_v_aligned xc yc <= 1.
Proof.
  unfold cramers_v_aligned.
  destruct (_ || _)%nat; [lra|].
  destruct (_ =? 0)%nat; [lra | apply cramers_v_table_in01].
Qed.

Lemma cramers_v_in01 x y : 0 <= cramers_v x y <= 1.
Proof.
  unfold cramers_v.
  destruct (_ || _)%nat; [lra|].
  destruct (if negb _ then _ else _) as [xc yc]; apply cramers_v_aligned_in01.
Qed.

(** ** Bounds of the numerical metrics *)

Lemma ecdf_in01 l t : 0 <= ecdf l t <= 1.
Proof.
  unfold ecdf, count_le; apply div_in01;
    [apply QofN_nonneg | apply QofN_le, length_filter_le].
Qed.

Lemma cdf_area_nonneg u v l :
  LocallySorted (fun a b => is_true (Qle_bool a b)) l -> 0 <= cdf_area u v l.
Proof.
  induction 1 as [| a | a b t Ht IH Hab]; [simpl; lra | simpl; lra |].
  change (cdf_area u v (a :: b :: t))
    with (Qabs (ecdf u a - ecdf v a) * (b - a) + cdf_area u v (b :: t)).
  apply Qle_bool_iff in Hab.
  assert (0 <= Qabs (ecdf u a - ecdf v a) * (b - a)).
  { apply Qmult_le_0_compat; [apply Qabs_nonneg | lra]. }
  lra.
Qed.

Lemma wasserstein_distance_nonneg u v : 0 <= wasserstein_distance u v.
Proof.
  unfold wasserstein_distance; apply cdf_area_nonneg, QSort.LocallySorted_sort.
Qed.

Lemma fold_py_min_le t a : fold_left py_min t a <= a.
Proof.
  revert a; induction t as [|b t IH]; intro a; simpl; [lra|].
  eapply Qle_trans; [apply IH | apply py_min_le_l].
Qed.

Lemma fold_py_max_ge t a : a <= fold_left py_max t a.
Proof.
  revert a; induction t as [|b t IH]; intro a; simpl; [lra|].
  eapply Qle_trans; [apply py_max_ge_l | apply IH].
Qed.

Lemma fold_py_max_lub t a c :
  a <= c -> Forall (fun q => q <= c) t -> fold_left py_max t a <= c.
Proof.
  revert a; induction t as [|b t IH]; intros a Ha Ht; simpl; [exact Ha|].
  inversion Ht; subst; apply IH; [apply py_max_lub; assumption | assumption].
Qed.

Lemma list_range_nonneg l : 0 <= list_max l - list_min l.
Proof.
  destruct l as [|a t]; simpl; [lra|].
  pose proof (fold_py_min_le t a); pose proof (fold_py_max_ge t a); lra.
Qed.

Lemma list_max_le l c : 0 <= c -> Forall (fun q => q <= c) l -> list_max l <= c.
Proof.
  intros Hc Hl; destruct l as [|a t]; simpl; [exact Hc|].
  inversion Hl; subst; apply fold_py_max_lub; assumption.
Qed.

Lemma np_clip01_in01 a : 0 <= np_clip a 0 1 <= 1.
Proof.
  unfold np_clip; split; [apply py_min_glb; [apply py_max_ge_r | lra]
                         | apply py_min_le_r].
Qed.

Lemma ks_2samp_in01 d1 d2 : 0 <= ks_2samp d1 d2 <= 1.
Proof.
  unfold ks_2samp; cbv zeta.
  match goal with |- context [np_clip ?a 0 1] => pose proof (np_clip01_in01 a) end.
  match goal with |- context [list_max ?l] =>
    assert (Hm : list_max l <= 1) end.
  { apply list_max_le; [lra|]. apply List.Forall_forall; intros q Hq.
    apply in_map_iff in Hq as [t [<- _]].
    pose proof (ecdf_in01 (QSort.sort d1) t); pose proof (ecdf_in01 (QSort.sort d2) t).
    lra. }
  destruct (Qle_bool _ _) eqn:E; qbool; lra.
Qed.

Lemma wasserstein_distance_normalized_in01 x y :
  0 <= wasserstein_distance_normalized x y <= 1.
Proof.
  unfold wasserstein_distance_normalized.
  destruct (to_numeric (vals (dropna x))) as [xc|]; [|lra].
  destruct (to_numeric (vals (dropna y))) as [yc|]; [|lra].
  destruct (_ || _)%nat; [lra|].
  cbv zeta.
  destruct (Qeq_bool (list_max xc - list_min xc) 0) eqn:E.
  - destruct (Qeq_bool (wasserstein_distance xc yc) 0); lra.
  - qbool. pose proof (list_range_nonneg xc).
    apply py_min_one_in01, div_nonneg; [apply wasserstein_distance_nonneg | lra].
Qed.

Lemma kolmogorov_smirnov_distance_in01 x y :
  0 <= kolmogorov_smirnov_distance x y <= 1.
Proof.
  unfold kolmogorov_smirnov_distance.
  destruct (to_numeric (vals (dropna x))) as [xc|]; [|lra].
  destruct (to_numeric (vals (dropna y))) as [yc|]; [|lra].
  destruct (_ || _)%nat; [lra | apply ks_2samp_in01].
Qed.

Lemma mean_shift_distance_in01 x y : 0 <= mean_shift_distance x y <= 1.
Proof.
  unfold mean_shift_distance.
  destruct (to_numeric (vals (dropna x))) as [xc|]; [|lra].
  destruct (to_numeric (vals (dropna y))) as [yc|]; [|lra].
  destruct (_ || _)%nat; [lra|].
  cbv zeta.
  destruct (pd_std xc) as [s|] eqn:Hs; [|lra].
  assert (Hs0 : 0 <= s).
  { unfold pd_std in Hs; destruct (_ <=? 1)%nat; [discriminate|].
    injection Hs as <-; apply py_sqrt_nonneg. }
  destruct (Qeq_bool s 0) eqn:E.
  - destruct (Qeq_bool (Qabs _) 0); lra.
  - apply py_min_one_in01, div_nonneg; [apply Qabs_nonneg | exact Hs0].
Qed.

(** ** Bounds of [SequenceMatcher.ratio] and of the text metric *)

Lemma run_len_bound a b alo blo fuel i j :
  (alo <= i)%nat -> (blo <= j)%nat ->
  (run_len a b alo blo fuel i j <= i + 1 - alo
   /\ run_len a b alo blo fuel i j <= j + 1 - blo)%nat.
Proof.
  revert i j; induction fuel as [|f IH]; intros i j Hi Hj; simpl; [lia|].
  destruct (_ && negb _); [|lia].
  destruct ((alo <? i) && (blo <? j))%nat eqn:E; [|lia].
  apply andb_true_iff in E as [E1 E2]; apply Nat.ltb_lt in E1, E2.
  destruct (IH (i - 1)%nat (j - 1)%nat) as [H1 H2]; lia.
Qed.


Lemma scan_inner_in a b alo ahi blo bhi i js best :
  (alo <= i < ahi)%nat ->
  Forall (fun j => blo <= j < bhi)%nat js ->
  block_in alo ahi blo bhi best ->
  block_in alo ahi blo bhi
    (fold_left
       (fun best j =>
          let k := run_len a b alo blo (S i) i j in
          if (snd best <? k)%nat then (i + 1 - k, j + 1 - k, k)%nat else best)
       js best).
Proof.
  intros Hi Hjs; revert best; induction Hjs as [|j js Hj Hjs IH]; intros best Hb;
    [exact Hb|].
  cbn [fold_left]; apply IH; cbv beta zeta.
  destruct (snd best <? run_len a b alo blo (S i) i j)%nat eqn:E; [|exact Hb].
  apply Nat.ltb_lt in E.
  destruct (run_len_bound a b alo blo (S i) i j) as [R1 R2]; try lia.
  set (k := run_len a b alo blo (S i) i j) in *; simpl; lia.
Qed.

Lemma scan_best_in a b alo ahi blo bhi :
  (alo <= ahi)%nat -> (blo <= bhi)%nat ->
  block_in alo ahi blo bhi (scan_best a b alo ahi blo bhi).
Proof.
  intros Ha Hb; unfold scan_best.
  assert (Hjs : Forall (fun j => blo <= j < bhi)%nat (seq blo (bhi - blo))).
  { apply List.Forall_forall; intros j Hj; apply in_seq in Hj; lia. }
  assert (His : Forall (fun i => alo <= i < ahi)%nat (seq alo (ahi - alo))).
  { apply List.Forall_forall; intros i Hi; apply in_seq in Hi; lia. }
  assert (H0 : block_in alo ahi blo bhi (alo, blo, O)) by (simpl; lia).
  revert H0; generalize (alo, blo, O) as best.
  induction His as [|i is Hi His IH]; intros best H0; simpl; [exact H0|].
  apply IH, scan_inner_in; assumption.
Qed.

Lemma extend_back_in a b alo ahi blo bhi fuel best :
  block_in alo ahi blo bhi best ->
  block_in alo ahi blo bhi (extend_back a b alo blo fuel best).
Proof.
  revert best; induction fuel as [|f IH]; intros [[i j] k] H; simpl; [exact H|].
  destruct (_ && _ && _) eqn:E; [|exact H].
  apply andb_true_iff in E as [E _]; apply andb_true_iff in E as [E1 E2].
  apply Nat.ltb_lt in E1, E2.
  apply IH; simpl in *; lia.
Qed.

Lemma extend_fwd_in a b alo ahi blo bhi fuel best :
  block_in alo ahi blo bhi best ->
  block_in alo ahi blo bhi (extend_fwd a b ahi bhi fuel best).
Proof.
  revert best; induction fuel as [|f IH]; intros [[i j] k] H; simpl; [exact H|].
  destruct (_ && _ && _) eqn:E; [|exact H].
  apply andb_true_iff in E as [E _]; apply andb_true_iff in E as [E1 E2].
  apply Nat.ltb_lt in E1, E2.
  apply IH; simpl in *; lia.
Qed.

Lemma find_longest_match_in a b alo ahi blo bhi :
  (alo <= ahi)%nat -> (blo <= bhi)%nat ->
  block_in alo ahi blo bhi (find_longest_match a b alo ahi blo bhi).
Proof.
  intros Ha Hb; unfold find_longest_match.
  apply extend_fwd_in, extend_back_in, scan_best_in; assumption.
Qed.

Lemma matched_bound a b fuel alo ahi blo bhi :
  (alo <= ahi)%nat -> (blo <= bhi)%nat ->
  (matched a b fuel alo ahi blo bhi <= ahi - alo
   /\ matched a b fuel alo ahi blo bhi <= bhi - blo)%nat.
Proof.
  revert alo ahi blo bhi; induction fuel as [|f IH]; intros alo ahi blo bhi Ha Hb;
    simpl; [lia|].
  pose proof (find_longest_match_in a b alo ahi blo bhi Ha Hb) as M.
  destruct (find_longest_match a b alo ahi blo bhi) as [[i j] k].
  simpl in M.
  destruct (k =? 0)%nat; [lia|].
  assert (L : (( if (alo <? i) && (blo <? j) then matched a b f alo i blo j else O)
               <= i - alo
              /\ ( if (alo <? i) && (blo <? j) then matched a b f alo i blo j else O)
               <= j - blo)%nat).
  { destruct ((alo <? i) && (blo <? j))%nat; [apply IH; lia | lia]. }
  assert (R : (( if (i + k <? ahi) && (j + k <? bhi)
                 then matched a b f (i + k) ahi (j + k) bhi else O) <= ahi - (i + k)
              /\ ( if (i + k <? ahi) && (j + k <? bhi)
                 then matched a b f (i + k) ahi (j + k) bhi else O) <= bhi - (j + k))%nat).
  { destruct ((i + k <? ahi) && (j + k <? bhi))%nat; [apply IH; lia | lia]. }
  lia.
Qed.

Lemma seq_ratio_in01 a b : 0 <= seq_ratio a b <= 1.
Proof.
  unfold seq_ratio; cbv zeta.
  destruct (length a + length b =? 0)%nat; [lra|].
  destruct (matched_bound a b (S (length a)) 0 (length a) 0 (length b))
    as [M1 M2]; try lia.
  set (m := matched a b (S (length a)) 0 (length a) 0 (length b)) in *.
  assert (E : 2 * QofN m == QofN (m + m)) by (rewrite QofN_add; ring).
  pose proof (QofN_nonneg m).
  apply div_in01; [lra|].
  rewrite E; apply QofN_le; lia.
Qed.

Lemma unique_replacement_dist_in01 x y : 0 <= unique_replacement_dist x y <= 1.
Proof.
  unfold unique_replacement_dist; cbv zeta.
  destruct (_ =? 0)%nat; [lra|].
  apply one_minus_in01, div_in01;
    [apply QofN_nonneg | apply QofN_le, length_filter_le].
Qed.

Lemma string_similarity_dist_in01 x y : 0 <= string_similarity_dist x y <= 1.
Proof.
  unfold string_similarity_dist; cbv zeta.
  destruct (_ || _)%nat; [lra|].
  apply one_minus_in01.
  match goal with |- context [match ?l with [] => 0 | _ :: _ => np_mean ?l end] =>
    destruct l as [|q qs] eqn:El end; [lra|].
  rewrite <- El; apply np_mean_in01.
  apply List.Forall_forall; intros q' Hq'.
  apply in_map_iff in Hq' as [i [<- _]]; apply seq_ratio_in01.
Qed.

Lemma text_similarity_distance_in01 x y : 0 <= text_similarity_distance x y <= 1.
Proof.
  unfold text_similarity_distance; apply np_mean_in01.
  repeat constructor;
    first [apply unique_replacement_dist_in01 | apply string_similarity_dist_in01].
Qed.

(** ** The weighting loop *)

Lemma weight_fold w l a b :
  fst (fold_left (weight_step w) l (a, b)) == a + ws_sum w l
  /\ snd (fold_left (weight_step w) l (a, b)) == b + tw_sum w l.
Proof.
  revert a b; induction l as [|cd l IH]; intros a b; simpl.
  - unfold ws_sum, tw_sum; simpl; split; lra.
  - destruct (IH (a + weight_of w (fst cd) * snd cd) (b + weight_of w (fst cd)))
      as [H1 H2].
    unfold ws_sum, tw_sum in *; simpl.
    split; [rewrite H1 | rewrite H2]; lra.
Qed.

Lemma Qlt_bool_compat a b c d : a == c -> b == d -> Qlt_bool a b = Qlt_bool c d.
Proof.
  intros H1 H2.
  destruct (Qlt_bool a b) eqn:E1, (Qlt_bool c d) eqn:E2; try reflexivity; qbool.
  - rewrite H1, H2 in E1; exfalso; apply (Qlt_not_le _ _ E1 E2).
  - rewrite <- H1, <- H2 in E2; exfalso; apply (Qlt_not_le _ _ E2 E1).
Qed.

Lemma global_distance_sums w l :
  global_distance_of w l
  == if Qlt_bool 0 (tw_sum w l) then ws_sum w l / tw_sum w l else 0.
Proof.
  unfold global_distance_of, weighted_totals.
  destruct (weight_fold w l 0 0) as [H1 H2].
  destruct (fold_left (weight_step w) l (0, 0)) as [ws tw]; simpl in H1, H2.
  assert (E1 : ws == ws_sum w l) by (rewrite H1; ring).
  assert (E2 : tw == tw_sum w l) by (rewrite H2; ring).
  rewrite (Qlt_bool_compat 0 tw 0 (tw_sum w l) (Qeq_refl 0) E2).
  destruct (Qlt_bool 0 (tw_sum w l)); [rewrite E1, E2|]; reflexivity.
Qed.


Lemma ws_le_tw w l :
  (forall c q, w !! c = Some q -> 0 <= q) ->
  Forall (fun cd => 0 <= snd cd <= 1) l ->
  0 <= ws_sum w l <= tw_sum w l.
Proof.
  intros Hw Hl.
  assert (Hnn : forall c, 0 <= weight_of w c).
  { intro c; unfold weight_of; destruct (w !! c) as [q|] eqn:E; simpl;
      [exact (Hw c q E) | discriminate]. }
  unfold ws_sum, tw_sum; induction Hl as [|cd l Hcd Hl IH]; simpl; [lra|].
  pose proof (Hnn (fst cd)) as H0.
  assert (0 <= weight_of w (fst cd) * snd cd) by (apply Qmult_le_0_compat; lra).
  assert (snd cd * weight_of w (fst cd) <= 1 * weight_of w (fst cd)).
  { apply Qmult_le_compat_r; lra. }
  lra.
Qed.

Lemma global_distance_in01 w l :
  (forall c q, w !! c = Some q -> 0 <= q) ->
  Forall (fun cd => 0 <= snd cd <= 1) l ->
  0 <= global_distance_of w l <= 1.
Proof.
  intros Hw Hl; rewrite global_distance_sums.
  destruct (Qlt_bool 0 (tw_sum w l)) eqn:E; [|lra].
  qbool; apply div_in01; apply ws_le_tw; assumption.
Qed.

(** ** [round] and the interpretation bands *)




Lemma round_half_even_ge (m : Z) x : inject_Z m <= x -> (m <= round_half_even x)%Z.
Proof.
  intro H; unfold round_half_even.
  assert (Hf : (m <= Qfloor x)%Z).
  { rewrite <- (Qfloor_Z m); apply Qfloor_resp_le; exact H. }
  destruct (Qlt_bool _ _); [lia|]; destruct (Qlt_bool _ _); [lia|];
    destruct (Z.even _); lia.
Qed.

Lemma round_half_even_le (m : Z) x : x <= inject_Z m -> (round_half_even x <= m)%Z.
Proof.
  intro H; unfold round_half_even.
  pose proof (Qfloor_le x) as F.
  assert (Hf : (Qfloor x <= m)%Z).
  { rewrite <- (Qfloor_Z m); apply Qfloor_resp_le; exact H. }
  assert (Hup : (1 # 2) <= x - inject_Z (Qfloor x) -> (Qfloor x + 1 <= m)%Z).
  { intro Hr.
    assert (Hlt : inject_Z (Qfloor x) < inject_Z m) by lra.
    rewrite <- Zlt_Qlt in Hlt; lia. }
  destruct (Qlt_bool (x - inject_Z (Qfloor x)) (1 # 2)) eqn:E1; [lia|]; qbool.
  specialize (Hup E1).
  destruct (Qlt_bool (1 # 2) (x - inject_Z (Qfloor x))); [lia|].
  destruct (Z.even _); lia.
Qed.

Lemma py_round_bounds (lo hi : Z) x n :
  inject_Z lo <= x <= inject_Z hi ->
  inject_Z lo <= py_round x n <= inject_Z hi.
Proof.
  intros [Hlo Hhi]; unfold py_round.
  set (s := (10 ^ Z.of_nat n)%Z).
  assert (Hs : (0 < s)%Z) by (apply Z.pow_pos_nonneg; lia).
  assert (Hsq : 0 < inject_Z s) by (change 0 with (inject_Z 0); rewrite <- Zlt_Qlt; exact Hs).
  assert (L : (lo * s <= round_half_even (x * inject_Z s))%Z).
  { apply round_half_even_ge; rewrite inject_Z_mult.
    apply Qmult_le_compat_r; lra. }
  assert (U : (round_half_even (x * inject_Z s) <= hi * s)%Z).
  { apply round_half_even_le; rewrite inject_Z_mult.
    apply Qmult_le_compat_r; lra. }
  split.
  - apply Qle_shift_div_l; [exact Hsq|].
    rewrite <- inject_Z_mult, <- Zle_Qle; exact L.
  - apply Qle_shift_div_r; [exact Hsq|].
    rewrite <- inject_Z_mult, <- Zle_Qle; exact U.
Qed.

(** ** The column loop of [calculate_global_score] *)

Lemma calculate_column_distance_in01 x y : 0 <= calculate_column_distance x y <= 1.
Proof.
  unfold calculate_column_distance.
  destruct (detect_column_type x).
  - apply np_mean_in01.
    pose proof (cramers_v_in01 x y); pose proof (jaccard_distance_in01 x y).
    repeat constructor; simpl; lra.
  - apply np_mean_in01.
    pose proof (wasserstein_distance_normalized_in01 x y).
    pose proof (kolmogorov_smirnov_distance_in01 x y).
    pose proof (mean_shift_distance_in01 x y).
    repeat constructor; simpl; lra.
  - apply text_similarity_distance_in01.
Qed.

Lemma score_fold a l acc :
  fold_left (score_step a) l acc =
  (fst acc ++ flat_map (fun nc => match get_column (columns a) (fst nc) with
                                  | Some acol => [(fst nc, calculate_column_distance (snd nc) acol)]
                                  | None => []
                                  end) l,
   snd acc ++ flat_map (fun nc => match get_column (columns a) (fst nc) with
                                  | Some _ => [(fst nc, detect_column_type (snd nc))]
                                  | None => []
                                  end) l).
Proof.
  revert acc; induction l as [|nc l IH]; intros [ds ts]; simpl.
  - rewrite !app_nil_r; reflexivity.
  - rewrite IH; unfold score_step; simpl.
    destruct (get_column (columns a) (fst nc)); simpl; rewrite <- ?app_assoc; reflexivity.
Qed.

Lemma get_column_None cols n : get_column cols n = None <-> ~ In n (map fst cols).
Proof.
  induction cols as [|[m c] cols IH]; simpl; [tauto|].
  destruct (String.eqb m n) eqn:E.
  - apply String.eqb_eq in E; subst; split; [discriminate | tauto].
  - apply String.eqb_neq in E; rewrite IH; tauto.
Qed.

Lemma score_columns_names o a :
  map fst (fst (score_columns o a))
  = map fst (List.filter (fun nc => has_column (columns a) (fst nc)) (columns o))
  /\ map fst (snd (score_columns o a))
  = map fst (List.filter (fun nc => has_column (columns a) (fst nc)) (columns o)).
Proof.
  unfold score_columns; rewrite score_fold; simpl.
  induction (columns o) as [|nc l IH]; simpl; [split; reflexivity|].
  destruct IH as [IH1 IH2].
  unfold has_column in *; destruct (get_column (columns a) (fst nc)); simpl; rewrite ?IH1, ?IH2; split; reflexivity.
Qed.

Lemma score_columns_in01 o a : Forall (fun cd => 0 <= snd cd <= 1) (fst (score_columns o a)).
Proof.
  unfold score_columns; rewrite score_fold; simpl.
  induction (columns o) as [|nc l IH]; simpl; [constructor|].
  destruct (get_column (columns a) (fst nc)); simpl; [|exact IH].
  constructor; [apply calculate_column_distance_in01 | exact IH].
Qed.

Lemma shape_eqb_iff o a : shape_eqb o a = true <-> shape o = shape a.
Proof.
  unfold shape_eqb, shape; rewrite andb_true_iff, !Nat.eqb_eq.
  split; [intros [-> ->]; reflexivity | intro H; injection H; tauto].
Qed.

Lemma calculate_global_score_ok s o a :
  shape o = shape a ->
  let '(cds, tys) := score_columns o a in
  let gd := global_distance_of (column_weights s) cds in
  calculate_global_score s o a =
  inr ({| column_weights := column_weights s;
          cached_column_scores := cds;
          cached_global_score := Some (1 + 99 * gd) |},
       {| res_anonify_score := py_round (1 + 99 * gd) 2;
          res_global_distance := py_round gd 4;
          res_column_scores := map (fun kv => (fst kv, py_round (snd kv) 4)) cds;
          res_column_types := tys;
          res_total_columns := length cds;
          res_score_interpretation := interpret_score (1 + 99 * gd) |}).
Proof.
  intro H; apply shape_eqb_iff in H.
  unfold calculate_global_score; rewrite H; simpl.
  destruct (score_columns o a); reflexivity.
Qed.

Lemma interpret_score_in q : In (interpret_score q) interpretations.
Proof.
  unfold interpret_score, interpretations.
  repeat match goal with |- context [if ?b then _ else _] => destruct b end;
    simpl; tauto.
Qed.


(** ** Cleaning and truncation *)

Lemma vals_dropna_from i s :
  vals (dropna_from i s) = List.filter (fun v => negb (is_missing v)) s.
Proof.
  revert i; induction s as [|v s IH]; intro i; simpl; [reflexivity|].
  destruct (is_missing v); simpl; rewrite IH; reflexivity.
Qed.

Lemma to_numeric_forallb l :
  match to_numeric l with Some _ => true | None => false end = forallb parses_as_number l.
Proof.
  induction l as [|v l IH]; simpl; [reflexivity|].
  unfold parses_as_number at 1.
  destruct (to_number v), (to_numeric l); simpl in *; congruence.
Qed.

Lemma dropna_from_nomiss i s :
  Forall (fun v => is_missing v = false) s ->
  dropna_from i s = combine (seq i (length s)) s.
Proof.
  intro H; revert i; induction H as [|v s Hv H IH]; intro i; simpl; [reflexivity|].
  rewrite Hv, IH; reflexivity.
Qed.

Lemma combine_seq_firstn m i (s : column) :
  firstn m (combine (seq i (length s)) s)
  = combine (seq i (length (firstn m s))) (firstn m s).
Proof.
  revert m i; induction s as [|v s IH]; intros m i; simpl.
  - rewrite !firstn_nil; reflexivity.
  - destruct m as [|m]; simpl; [reflexivity|].
    rewrite IH; reflexivity.
Qed.

Lemma Forall_firstn_nomiss m s :
  Forall (fun v => is_missing v = false) s ->
  Forall (fun v => is_missing v = false) (firstn m s).
Proof.
  intro H; revert m; induction H as [|v s Hv H IH]; intro m.
  - rewrite firstn_nil; constructor.
  - destruct m; simpl; constructor; auto.
Qed.

Lemma dropna_firstn_nomiss m s :
  Forall (fun v => is_missing v = false) s ->
  dropna (firstn m s) = firstn m (dropna s).
Proof.
  intro H; unfold dropna.
  rewrite (dropna_from_nomiss 0 s H), (dropna_from_nomiss 0 _ (Forall_firstn_nomiss m s H)).
  symmetry; apply combine_seq_firstn.
Qed.

Lemma length_dropna_nomiss s :
  Forall (fun v => is_missing v = false) s -> length (dropna s) = length s.
Proof.
  intro H; unfold dropna; rewrite (dropna_from_nomiss 0 s H).
  rewrite length_combine, length_seq; lia.
Qed.

Lemma unique_firstn_le m l : (length (unique (firstn m l)) <= length (unique l))%nat.
Proof.
  rewrite <- (firstn_skipn m l) at 2; unfold unique.
  rewrite uniq_acc_app; apply uniq_acc_length.
Qed.

Lemma unique_length_pos l : l <> [] -> (1 <= length (unique l))%nat.
Proof.
  destruct l as [|v t]; [congruence|]; intros _.
  pose proof (unique_cons_nonempty v t).
  destruct (unique (v :: t)); [congruence | simpl; lia].
Qed.

Lemma vals_nil l : vals l = [] <-> l = [].
Proof. unfold vals; split; [apply map_eq_nil | intros ->; reflexivity]. Qed.

Lemma filter_firstn_filter (f : value -> bool) k l :
  List.filter f (firstn k (List.filter f l)) = firstn k (List.filter f l).
Proof.
  revert k; induction l as [|v l IH]; intro k; simpl.
  - rewrite firstn_nil; reflexivity.
  - destruct (f v) eqn:Ev; [|apply IH].
    destruct k as [|k]; simpl; [reflexivity|].
    rewrite Ev, IH; reflexivity.
Qed.

Lemma str_cells_firstn_vals k x :
  str_cells (firstn k (vals (dropna x))) = firstn k (str_cells x).
Proof.
  unfold str_cells, dropna.
  rewrite !vals_dropna_from, filter_firstn_filter, firstn_map; reflexivity.
Qed.

(** The string-similarity part of [text_similarity_distance] reads only
    the first [min(len(x_str), len(y_str), 100)] cleaned cells of each
    column. *)
Lemma string_similarity_firstn k x y :
  (Nat.min (Nat.min (length (str_cells x)) (length (str_cells y))) 100 <= k)%nat ->
  string_similarity_dist (firstn k (vals (dropna x))) (firstn k (vals (dropna y)))
  = string_similarity_dist x y.
Proof.
  intro Hk.
  unfold string_similarity_dist at 1; rewrite !str_cells_firstn_vals.
  unfold string_similarity_dist.
  set (xs := str_cells x) in *; set (ys := str_cells y) in *.
  rewrite !length_firstn.
  destruct (Nat.eq_dec (length xs) 0%nat) as [E|E].
  { rewrite E, Nat.min_0_r; reflexivity. }
  destruct (Nat.eq_dec (length ys) 0%nat) as [F|F].
  { rewrite F, Nat.min_0_r, !orb_true_r; reflexivity. }
  replace ((Nat.min k (length xs) =? 0)%nat) with false
    by (symmetry; apply Nat.eqb_neq; lia).
  replace ((Nat.min k (length ys) =? 0)%nat) with false
    by (symmetry; apply Nat.eqb_neq; lia).
  replace ((length xs =? 0)%nat) with false by (symmetry; apply Nat.eqb_neq; lia).
  replace ((length ys =? 0)%nat) with false by (symmetry; apply Nat.eqb_neq; lia).
  cbn [orb].
  replace (Nat.min (Nat.min (Nat.min k (length xs)) (Nat.min k (length ys))) 100)
    with (Nat.min (Nat.min (length xs) (length ys)) 100) by lia.
  erewrite map_ext_in; [reflexivity|].
  intros i Hi; apply in_seq in Hi.
  rewrite !nth_firstn.
  replace (i <? k)%nat with true by (symmetry; apply Nat.ltb_lt; lia).
  reflexivity.
Qed.

(** After the length check, [cramers_v] works on prefixes of the cleaned
    series of a common length. *)
Lemma cramers_v_prefixes x y :
  dropna x <> [] -> dropna y <> [] ->
  cramers_v x y
  = let m := Nat.min (length (dropna x)) (length (dropna y)) in
    cramers_v_aligned (firstn m (dropna x)) (firstn m (dropna y)).
Proof.
  intros Hx Hy; unfold cramers_v; cbv zeta.
  destruct (length (dropna x) =? 0)%nat eqn:Ex;
    [apply Nat.eqb_eq, length_zero_iff_nil in Ex; congruence|].
  destruct (length (dropna y) =? 0)%nat eqn:Ey;
    [apply Nat.eqb_eq, length_zero_iff_nil in Ey; congruence|].
  simpl.
  destruct (length (dropna x) =? length (dropna y))%nat eqn:E; simpl; [|reflexivity].
  apply Nat.eqb_eq in E; rewrite <- E, Nat.min_id, !firstn_all2 by lia.
  reflexivity.
Qed.

Lemma constant_prefix l m :
  length (unique (vals l)) = 1%nat -> (1 <= m)%nat ->
  length (unique (vals (firstn m l))) = 1%nat.
Proof.
  intros H Hm.
  assert (Hne : l <> []) by (intros ->; discriminate).
  unfold vals in *; rewrite <- firstn_map.
  pose proof (unique_firstn_le m (map snd l)).
  assert (firstn m (map snd l) <> []).
  { destruct l as [|p l]; [congruence|]; destruct m; [lia|]; discriminate. }
  pose proof (unique_length_pos _ H1); lia.
Qed.

(** ** Weight maps *)

Lemma weight_of_default w c c' :
  w !! c = None -> weight_of (<[c := 1]> w) c' = weight_of w c'.
Proof.
  intro H; unfold weight_of.
  destruct (decide (c = c')) as [<-|Hne].
  - rewrite lookup_insert_eq, H; reflexivity.
  - rewrite lookup_insert_ne by exact Hne; reflexivity.
Qed.

Lemma weighted_totals_default w c cds :
  w !! c = None -> weighted_totals (<[c := 1]> w) cds = weighted_totals w cds.
Proof.
  intro H; unfold weighted_totals.
  assert (G : forall acc, fold_left (weight_step (<[c := 1]> w)) cds acc
                          = fold_left (weight_step w) cds acc).
  { induction cds as [|cd cds IH]; intro acc; simpl; [reflexivity|].
    replace (weight_step (<[c := 1]> w) acc cd) with (weight_step w acc cd)
      by (unfold weight_step; rewrite (weight_of_default w c (fst cd) H); reflexivity).
    apply IH. }
  apply G.
Qed.

Lemma sums_zero_weight w c d l1 l2 :
  w !! c = Some 0 ->
  ws_sum w (l1 ++ (c, d) :: l2) == ws_sum w (l1 ++ l2)
  /\ tw_sum w (l1 ++ (c, d) :: l2) == tw_sum w (l1 ++ l2).
Proof.
  intro H.
  assert (Hc : weight_of w c = 0) by (unfold weight_of; rewrite H; reflexivity).
  unfold ws_sum, tw_sum; rewrite !map_app, !q_sum_app; simpl; rewrite Hc.
  split; ring.
Qed.

Lemma global_distance_zero_weight w c d l1 l2 :
  w !! c = Some 0 ->
  global_distance_of w (l1 ++ (c, d) :: l2) == global_distance_of w (l1 ++ l2).
Proof.
  intro H; destruct (sums_zero_weight w c d l1 l2 H) as [E1 E2].
  rewrite !global_distance_sums.
  rewrite (Qlt_bool_compat 0 _ 0 _ (Qeq_refl 0) E2).
  destruct (Qlt_bool 0 (tw_sum w (l1 ++ l2))); [|reflexivity].
  rewrite E1, E2; reflexivity.
Qed.

(** ** Interpretation bands *)




(** ** Self-comparison and constant columns *)

Lemma filter_id {A} (f : A -> bool) l :
  (forall v, In v l -> f v = true) -> List.filter f l = l.
Proof.
  induction l as [|v l IH]; intro H; simpl; [reflexivity|].
  rewrite (H v (or_introl eq_refl)), IH by (intros; apply H; right; assumption).
  reflexivity.
Qed.

Lemma jaccard_distance_self x : jaccard_distance x x == 0.
Proof.
  unfold jaccard_distance.
  set (u := unique (vals (dropna x))).
  destruct (length u =? 0)%nat eqn:E0; [reflexivity|]; simpl.
  apply Nat.eqb_neq in E0.
  rewrite (filter_id (fun v => memv v u) u) by (intros; apply memv_in; assumption).
  assert (Hu : unique (u ++ u) = u).
  { unfold unique at 1; rewrite uniq_acc_app.
    change (uniq_acc [] u) with (unique u).
    unfold u; rewrite unique_idem; fold u.
    apply uniq_acc_present; intros; apply memv_in; assumption. }
  rewrite Hu.
  assert (Hp : (0 <? length u)%nat = true) by (apply Nat.ltb_lt; lia).
  rewrite Hp.
  assert (Hq : 0 < QofN (length u)) by (apply QofN_pos; lia).
  field; lra.
Qed.

Lemma cramers_v_constant x y :
  length (unique (vals (dropna x))) = 1%nat \/ length (unique (vals (dropna y))) = 1%nat ->
  cramers_v x y = 0.
Proof.
  intro H.
  destruct (dropna x) as [|px lx] eqn:Ex.
  { unfold cramers_v; rewrite Ex; reflexivity. }
  destruct (dropna y) as [|py ly] eqn:Ey.
  { unfold cramers_v; rewrite Ex, Ey; simpl; destruct (length lx); reflexivity. }
  rewrite cramers_v_prefixes by (rewrite ?Ex, ?Ey; discriminate).
  rewrite Ex, Ey; cbv zeta; unfold cramers_v_aligned.
  assert (Hm : (1 <= Nat.min (length (px :: lx)) (length (py :: ly)))%nat)
    by (simpl; lia).
  destruct H as [H|H].
  - rewrite (constant_prefix _ _ H Hm); reflexivity.
  - rewrite (constant_prefix _ _ H Hm), orb_true_r; reflexivity.
Qed.

Lemma dropna_all_missing i x :
  Forall (fun v => is_missing v = true) x -> dropna_from i x = [].
Proof.
  intro H; revert i; induction H as [|v x Hv H IH]; intro i; simpl; [reflexivity|].
  rewrite Hv; apply IH.
Qed.

(** * The properties of the specification *)

(** ** Degenerate categorical columns *)

(** Claim C1 (as amended).  When a cleaned column is empty or constant,
    [cramers_v] returns 0, so the association distance [1 - V] used in the
    categorical column score is 1, not 0.  Once the table is built, a total
    count of at most 1 or a single row or column also gives [V = 0].  When
    only the bias-corrected denominator is non-positive, the code falls back
    to the uncorrected coefficient [sqrt(phi2 / min(k - 1, r - 1))],
    clamped to [0, 1]. *)
Theorem cramers_v_degenerate :
  (forall x y,
     dropna x = [] \/ dropna y = [] \/
     length (unique (vals (dropna x))) = 1%nat \/
     length (unique (vals (dropna y))) = 1%nat ->
     cramers_v x y = 0 /\ 1 - cramers_v x y == 1)
  /\ (forall t,
        ct_total t <= 1 \/ length (ct_rows t) = 1%nat \/ length (ct_cols t) = 1%nat ->
        cramers_v_table t = 0)
  /\ (forall t,
        1 < ct_total t ->
        (2 <= length (ct_rows t))%nat -> (2 <= length (ct_cols t))%nat ->
        py_min (QofN (length (ct_cols t))
                - (QofN (length (ct_cols t)) - 1) ^ 2 / (ct_total t - 1) - 1)
               (QofN (length (ct_rows t))
                - (QofN (length (ct_rows t)) - 1) ^ 2 / (ct_total t - 1) - 1) <= 0 ->
        cramers_v_table t
        = py_max 0 (py_min 1 (py_sqrt (chi2_contingency t / ct_total t
                                       / py_min (QofN (length (ct_cols t)) - 1)
                                                (QofN (length (ct_rows t)) - 1))))).
Proof.
  split; [|split].
  - intros x y H.
    assert (E : cramers_v x y = 0).
    { destruct H as [H|[H|H]].
      - unfold cramers_v; rewrite H; reflexivity.
      - unfold cramers_v; rewrite H; cbn [length Nat.eqb]; rewrite orb_true_r;
          reflexivity.
      - apply cramers_v_constant; exact H. }
    split; [exact E | rewrite E; reflexivity].
  - intros t H; unfold cramers_v_table; cbv zeta.
    destruct (Qle_bool (ct_total t) 1) eqn:En; [reflexivity|].
    qbool.
    destruct H as [H|[H|H]]; [lra| |].
    + rewrite H; reflexivity.
    + rewrite H; change ((1 =? 1)%nat) with true; rewrite orb_true_r; reflexivity.
  - intros t Hn Hr Hk Hd; unfold cramers_v_table; cbv zeta.
    rewrite (proj2 (Qle_bool_false _ _) Hn).
    assert (Er : (length (ct_rows t) =? 1)%nat = false) by (apply Nat.eqb_neq; lia).
    assert (Ek : (length (ct_cols t) =? 1)%nat = false) by (apply Nat.eqb_neq; lia).
    rewrite Er, Ek; cbn [orb].
    rewrite (proj2 (Qle_bool_iff _ _) Hd).
    assert (Hpos : 0 < py_min (QofN (length (ct_cols t)) - 1)
                              (QofN (length (ct_rows t)) - 1)).
    { assert (2 <= QofN (length (ct_cols t)))
        by (change 2 with (QofN 2); apply QofN_le; lia).
      assert (2 <= QofN (length (ct_rows t)))
        by (change 2 with (QofN 2); apply QofN_le; lia).
      unfold py_min; destruct (Qle_bool _ _); lra. }
    rewrite (proj2 (Qle_bool_false _ _) Hpos).
    reflexivity.
Qed.

(** Claim C1, counterexample: the column [A, A, A] is classified as
    categorical; against [B, C, B] its association distance is 1, not 0. *)
Lemma cramers_v_constant_cex :
  detect_column_type [VStr "A"; VStr "A"; VStr "A"] = Categorical
  /\ 1 - cramers_v [VStr "A"; VStr "A"; VStr "A"] [VStr "B"; VStr "C"; VStr "B"] == 1.
Proof. split; vm_compute; reflexivity. Qed.

(** Witness of [cramers_v_degenerate] at a constant column, a table with
    one row, and the table of [A, B, C] against [A, A, B], whose corrected
    denominator is [-1/2]. *)
Lemma cramers_v_degenerate_witness :
  cramers_v [VStr "A"; VStr "A"] [VStr "B"; VStr "C"] = 0
  /\ cramers_v_table (crosstab [(VStr "A", VStr "B"); (VStr "A", VStr "C")]) = 0
  /\ cramers_v_table (crosstab [(VStr "A", VStr "A"); (VStr "B", VStr "A");
                                (VStr "C", VStr "B")]) == 1.
Proof.
  destruct cramers_v_degenerate as [H1 [H2 H3]].
  split; [|split].
  - refine (proj1 (H1 [VStr "A"; VStr "A"] [VStr "B"; VStr "C"] _)).
    right; right; left; vm_compute; reflexivity.
  - apply H2; right; left; vm_compute; reflexivity.
  - rewrite H3; [vm_compute; reflexivity | vm_compute; reflexivity
                | vm_compute; lia | vm_compute; lia | vm_compute; discriminate].
Defined.


(** ** Errors and well-formed results *)

(** In exact arithmetic, [calculate_global_score] raises exactly when the
    shapes of the two frames differ, and for frames of the same shape it
    returns a complete result.  (With floats, weights whose sum overflows
    to [inf] make the global distance [inf / inf], that is NaN.)  The frames have distinct column names, as [read_csv]
    builds them, and the weights are non-negative.  The result has one
    score per scored column, and the same names in its scores and its types.
    Every column score and the global distance lie in [0, 1], the score
    lies in [1, 100], and the interpretation is one of the five bands. *)
Theorem calculate_global_score_raises_iff (s : scorer) (o a : frame) :
  ((exists e, calculate_global_score s o a = inl e) <-> shape o <> shape a)
  /\ (wf_frame o -> wf_frame a -> shape o = shape a ->
      (forall c q, column_weights s !! c = Some q -> 0 <= q) ->
      exists s' r, calculate_global_score s o a = inr (s', r) /\ wf_result r).
Proof.
  split.
  - unfold calculate_global_score.
    destruct (shape_eqb o a) eqn:E; simpl.
    + apply shape_eqb_iff in E.
      destruct (score_columns o a); split; [intros [e He]; discriminate | tauto].
    + split; [intros _ Hs; apply shape_eqb_iff in Hs; congruence | intros _; eauto].
  - intros _ _ Hs Hw.
    pose proof (calculate_global_score_ok s o a Hs) as Hc.
    pose proof (score_columns_names o a) as [N1 N2].
    pose proof (score_columns_in01 o a) as B.
    destruct (score_columns o a) as [cds tys]; simpl in *.
    pose proof (global_distance_in01 _ cds Hw B) as G.
    eexists _, _; split; [exact Hc|].
    unfold wf_result; simpl.
    split; [rewrite length_map; reflexivity|].
    split; [rewrite N2, map_map, <- N1; reflexivity|].
    split.
    { apply List.Forall_forall; intros [k v] Hin.
      apply in_map_iff in Hin as [[k' v'] [Heq Hin]]; simpl in Heq.
      injection Heq as <- <-.
      rewrite List.Forall_forall in B; apply (B _) in Hin; simpl in *.
      apply (py_round_bounds 0 1); exact Hin. }
    split; [apply (py_round_bounds 0 1); exact G|].
    split; [apply (py_round_bounds 1 100); unfold inject_Z; lra|].
    apply interpret_score_in.
Qed.

(** Witness of [calculate_global_score_raises_iff] on two one-column frames
    of one row. *)
Lemma calculate_global_score_raises_iff_witness :
  exists s' r,
    calculate_global_score (new_scorer None)
      {| nrows := 1; columns := [("a", [VNum 1])] |}
      {| nrows := 1; columns := [("a", [VNum 2])] |} = inr (s', r)
    /\ wf_result r.
Proof.
  apply (proj2 (calculate_global_score_raises_iff (new_scorer None)
                  {| nrows := 1; columns := [("a", [VNum 1])] |}
                  {| nrows := 1; columns := [("a", [VNum 2])] |})).
  - split; simpl; [apply NoDup_singleton | repeat constructor].
  - split; simpl; [apply NoDup_singleton | repeat constructor].
  - reflexivity.
  - intros c q H; simpl in H; rewrite lookup_empty in H; discriminate.
Defined.

(** ** The global score *)



(** ** Ranges of the metrics *)

(** In exact arithmetic, for every pair of columns, each metric lies in
    [0, 1].  (With floats, a cell such as the string ["nan"] becomes NaN
    under [astype(float)], and [ks_2samp] can then return NaN, which
    [kolmogorov_smirnov_distance] does not clamp.)
    This includes empty, all-missing and constant columns.  The metrics
    are Cramér's V, the Jaccard distance, the normalised Wasserstein
    distance, the Kolmogorov-Smirnov distance, the mean-shift distance and
    the text distance.  So does the column distance built from them. *)
Theorem metrics_in_unit_interval (x y : column) :
  0 <= cramers_v x y <= 1
  /\ 0 <= jaccard_distance x y <= 1
  /\ 0 <= wasserstein_distance_normalized x y <= 1
  /\ 0 <= kolmogorov_smirnov_distance x y <= 1
  /\ 0 <= mean_shift_distance x y <= 1
  /\ 0 <= text_similarity_distance x y <= 1
  /\ 0 <= calculate_column_distance x y <= 1.
Proof.
  repeat split; try apply cramers_v_in01; try apply jaccard_distance_in01;
    try apply wasserstein_distance_normalized_in01;
    try apply kolmogorov_smirnov_distance_in01; try apply mean_shift_distance_in01;
    try apply text_similarity_distance_in01; apply calculate_column_distance_in01.
Qed.

(** ** The classifier *)

(** Claim C5.  [detect_column_type] is the total function of spec section
    4.1.  It drops the missing cells.  An empty remainder gives
    [Categorical].  If every remaining cell parses as a number, it gives
    [Numerical].  Otherwise a distinct/total ratio below 0.5 gives
    [Categorical], and any other ratio gives [Text]. *)
Theorem detect_column_type_spec (series : column) :
  detect_column_type series = spec_column_type series.
Proof.
  unfold detect_column_type, spec_column_type, dropna.
  rewrite vals_dropna_from.
  destruct (List.filter (fun v => negb (is_missing v)) series) as [|v t] eqn:E;
    [reflexivity|].
  rewrite <- to_numeric_forallb.
  destruct (to_numeric (v :: t)); reflexivity.
Qed.

(** ** Comparing a column with itself *)

(** Claim C6 (as amended).  For every column, the Jaccard distance to itself
    is 0.  The association distance [1 - V] of a column to itself is not
    close to 0 in general.  When the column has a single distinct
    non-missing value, it is 1. *)
Theorem self_distances (x : column) :
  jaccard_distance x x == 0
  /\ (length (unique (vals (dropna x))) = 1%nat -> 1 - cramers_v x x == 1).
Proof.
  split; [apply jaccard_distance_self|].
  intro H; rewrite (cramers_v_constant x x (or_introl H)); reflexivity.
Qed.

(** Claim C6, counterexample: the non-empty column [A, A, A] is classified
    as categorical.  Its association distance to itself is 1. *)
Lemma self_association_cex :
  detect_column_type [VStr "A"; VStr "A"; VStr "A"] = Categorical
  /\ 1 - cramers_v [VStr "A"; VStr "A"; VStr "A"] [VStr "A"; VStr "A"; VStr "A"] == 1.
Proof. split; vm_compute; reflexivity. Qed.

(** Witness of [self_distances] on the column [A, A, None]. *)
Lemma self_distances_witness :
  jaccard_distance [VStr "A"; VStr "A"; VNone] [VStr "A"; VStr "A"; VNone] == 0
  /\ 1 - cramers_v [VStr "A"; VStr "A"; VNone] [VStr "A"; VStr "A"; VNone] == 1.
Proof.
  destruct (self_distances [VStr "A"; VStr "A"; VNone]) as [H1 H2].
  split; [exact H1 | apply H2; vm_compute; reflexivity].
Defined.

(** ** Length mismatches *)

(** Claim C7 (as amended).  Two computations truncate.  [cramers_v]
    drops the missing cells of both columns and cuts the two cleaned
    series to the shorter length, keeping their row labels, which
    [crosstab] then pairs; for columns without missing cells this is the
    same as cutting the columns themselves.  The string-similarity part of
    [text_similarity_distance] reads only the first
    [min(len(x_str), len(y_str), 100)] cleaned cells of each column, so it
    equals its value on the cleaned columns cut to any length at least
    that, in particular to the shorter length.  The Jaccard distance, the
    three numeric metrics and the unique-value part of the text distance
    use the full cleaned columns: on [0, 4] against [0, 5, 4] each of them
    differs from its value on the columns cut to length 2. *)
Theorem cramers_v_truncation :
  (forall x y, dropna x <> [] -> dropna y <> [] ->
     let m := Nat.min (length (dropna x)) (length (dropna y)) in
     cramers_v x y = cramers_v_aligned (firstn m (dropna x)) (firstn m (dropna y)))
  /\ (forall x y,
        Forall (fun v => is_missing v = false) x ->
        Forall (fun v => is_missing v = false) y ->
        let m := Nat.min (length x) (length y) in
        cramers_v x y = cramers_v (firstn m x) (firstn m y))
  /\ (forall x y k,
        (Nat.min (Nat.min (length (str_cells x)) (length (str_cells y))) 100 <= k)%nat ->
        string_similarity_dist x y
        = string_similarity_dist (firstn k (vals (dropna x))) (firstn k (vals (dropna y))))
  /\ (let x := [VNum 0; VNum 4] in
      let y := [VNum 0; VNum 5; VNum 4] in
      ~ jaccard_distance x y == jaccard_distance (firstn 2 x) (firstn 2 y)
      /\ ~ wasserstein_distance_normalized x y
            == wasserstein_distance_normalized (firstn 2 x) (firstn 2 y)
      /\ ~ kolmogorov_smirnov_distance x y
            == kolmogorov_smirnov_distance (firstn 2 x) (firstn 2 y)
      /\ ~ mean_shift_distance x y == mean_shift_distance (firstn 2 x) (firstn 2 y)
      /\ ~ unique_replacement_dist x y
            == unique_replacement_dist (firstn 2 x) (firstn 2 y)).
Proof.
  split; [exact cramers_v_prefixes|].
  split.
  2:{ split.
      - intros x y k Hk; symmetry; apply string_similarity_firstn; exact Hk.
      - cbv zeta; repeat split; vm_compute; discriminate. }
  intros x y Hx Hy m.
  pose proof (length_dropna_nomiss x Hx) as Lx.
  pose proof (length_dropna_nomiss y Hy) as Ly.
  destruct x as [|vx x'].
  { unfold m; simpl; unfold cramers_v; reflexivity. }
  destruct y as [|vy y'].
  { unfold m; rewrite Nat.min_0_r; simpl firstn.
    unfold cramers_v; cbn [dropna dropna_from length Nat.eqb];
      rewrite orb_true_r; reflexivity. }
  assert (Hm : (1 <= m)%nat) by (unfold m; simpl; lia).
  assert (Nx : dropna (vx :: x') <> [])
    by (intro E; rewrite E in Lx; discriminate).
  assert (Ny : dropna (vy :: y') <> [])
    by (intro E; rewrite E in Ly; discriminate).
  rewrite (cramers_v_prefixes _ _ Nx Ny).
  assert (Fx : firstn m (dropna (vx :: x')) <> []).
  { destruct (dropna (vx :: x')); [congruence|]; destruct m; [lia|]; discriminate. }
  assert (Fy : firstn m (dropna (vy :: y')) <> []).
  { destruct (dropna (vy :: y')); [congruence|]; destruct m; [lia|]; discriminate. }
  rewrite (cramers_v_prefixes (firstn m (vx :: x')) (firstn m (vy :: y')))
    by (rewrite dropna_firstn_nomiss; assumption).
  rewrite !(dropna_firstn_nomiss m) by assumption.
  cbv zeta.
  rewrite !length_firstn, !firstn_firstn, Lx, Ly.
  fold m.
  replace (Nat.min (Nat.min m (length (vx :: x'))) (Nat.min m (length (vy :: y'))))
    with m by (unfold m; lia).
  rewrite Nat.min_id; reflexivity.
Qed.

(** Claim C7, counterexample: on [0, 4] against [0, 5, 4], cut to the
    shorter length [0, 4] against [0, 5], the Jaccard distance goes from
    1/3 to 2/3, the Wasserstein distance from 1/4 to 1/8, the
    Kolmogorov-Smirnov distance from 1/3 to 1/2 and the unique-value part
    of the text distance from 0 to 1/2. *)
Lemma metrics_no_truncation_cex :
  let x := [VNum 0; VNum 4] in
  let y := [VNum 0; VNum 5; VNum 4] in
  jaccard_distance x y == 1 # 3
  /\ jaccard_distance (firstn 2 x) (firstn 2 y) == 2 # 3
  /\ wasserstein_distance_normalized x y == 1 # 4
  /\ wasserstein_distance_normalized (firstn 2 x) (firstn 2 y) == 1 # 8
  /\ kolmogorov_smirnov_distance x y == 1 # 3
  /\ kolmogorov_smirnov_distance (firstn 2 x) (firstn 2 y) == 1 # 2
  /\ unique_replacement_dist x y == 0
  /\ unique_replacement_dist (firstn 2 x) (firstn 2 y) == 1 # 2.
Proof. cbv zeta; repeat split; vm_compute; reflexivity. Qed.

(** Witness of [cramers_v_truncation] on [A, B, C] against [A, B]. *)
Lemma cramers_v_truncation_witness :
  cramers_v [VStr "A"; VStr "B"; VStr "C"] [VStr "A"; VStr "B"]
  = cramers_v [VStr "A"; VStr "B"] [VStr "A"; VStr "B"].
Proof.
  apply (proj1 (proj2 cramers_v_truncation)); repeat constructor.
Defined.

(** ** Weights *)

(** Claim C8.  A column of weight 0 does not move the global distance.
    Removing it, or changing its distance, gives the same value.  A
    column missing from the weight map weighs the same as one given
    weight 1.0. *)
Theorem column_weight_rules (w : gmap string Q) (c : string) :
  (w !! c = Some 0 ->
   forall l1 l2 d d',
     global_distance_of w (l1 ++ (c, d) :: l2) == global_distance_of w (l1 ++ l2)
     /\ global_distance_of w (l1 ++ (c, d) :: l2)
        == global_distance_of w (l1 ++ (c, d') :: l2))
  /\ (w !! c = None ->
      forall cds, global_distance_of (<[c := 1]> w) cds = global_distance_of w cds).
Proof.
  split.
  - intros H l1 l2 d d'.
    pose proof (global_distance_zero_weight w c d l1 l2 H) as E1.
    pose proof (global_distance_zero_weight w c d' l1 l2 H) as E2.
    split; [exact E1 | rewrite E1, E2; reflexivity].
  - intros H cds; unfold global_distance_of.
    rewrite (weighted_totals_default w c cds H); reflexivity.
Qed.

(** Witness of [column_weight_rules]: with [a] of weight 0, the distances
    [a = 0.9, b = 0.2] give the global distance of [b = 0.2] alone.  With
    the empty map, giving [a] weight 1.0 changes nothing. *)
Lemma column_weight_rules_witness :
  global_distance_of (<[ "a"%string := 0 ]> ∅) [("a", 9 # 10); ("b", 1 # 5)]%string
  == global_distance_of (<[ "a"%string := 0 ]> ∅) [("b", 1 # 5)]%string
  /\ global_distance_of (<[ "a"%string := 1 ]> ∅) [("a", 9 # 10); ("b", 1 # 5)]%string
     = global_distance_of ∅ [("a", 9 # 10); ("b", 1 # 5)]%string.
Proof.
  destruct (column_weight_rules (<[ "a"%string := 0 ]> ∅) "a") as [H1 _].
  destruct (column_weight_rules ∅ "a") as [_ H2].
  split.
  - apply (H1 (lookup_insert_eq _ _ _) [] [("b", 1 # 5)]%string (9 # 10) 0).
  - apply H2; apply lookup_empty.
Defined.

(** ** Columns missing from the transformed frame *)

(** Claim C9.  For frames with distinct column names (as [pd.read_csv]
    builds them), when the shapes agree, a column of the original frame whose
    name is not in the transformed frame is skipped without error.  The
    scored columns are those of the original frame that the transformed
    frame has, in order.  When no name is shared, the result has no column
    scores and no types, [total_columns = 0], global distance 0, score 1.0,
    and the lowest band. *)
Theorem absent_columns_skipped (s : scorer) (o a : frame) :
  wf_frame o -> wf_frame a ->
  shape o = shape a ->
  (exists s' r, calculate_global_score s o a = inr (s', r)
     /\ map fst (res_column_scores r)
        = map fst (List.filter (fun nc => has_column (columns a) (fst nc)) (columns o))
     /\ map fst (res_column_types r)
        = map fst (List.filter (fun nc => has_column (columns a) (fst nc)) (columns o)))
  /\ ((forall n, In n (map fst (columns o)) -> ~ In n (map fst (columns a))) ->
      exists s' r, calculate_global_score s o a = inr (s', r)
        /\ res_column_scores r = [] /\ res_column_types r = []
        /\ res_total_columns r = 0%nat
        /\ res_global_distance r == 0 /\ res_anonify_score r == 1
        /\ res_score_interpretation r
           = "Very Low Anonymization - Data is largely unchanged"%string).
Proof.
  intros _ _ Hs.
  pose proof (calculate_global_score_ok s o a Hs) as Hc.
  pose proof (score_columns_names o a) as [N1 N2].
  split.
  - destruct (score_columns o a) as [cds tys]; simpl in *.
    eexists _, _; split; [exact Hc|]; simpl.
    rewrite map_map; split; [exact N1 | exact N2].
  - intro Hd.
    assert (E : score_columns o a = ([], [])).
    { clear Hc N1 N2; unfold score_columns; rewrite score_fold; simpl.
      induction (columns o) as [|nc l IH]; [reflexivity|].
      simpl in Hd.
      assert (G : get_column (columns a) (fst nc) = None)
        by (apply get_column_None; apply Hd; left; reflexivity).
      simpl; rewrite G; simpl; apply IH.
      intros n Hn; apply Hd; right; exact Hn. }
    rewrite E in Hc; simpl in Hc.
    eexists _, _; split; [exact Hc|]; simpl.
    repeat split; vm_compute; reflexivity.
Qed.

(** Witness of [absent_columns_skipped] on two one-column frames named
    [a] and [b]. *)
Lemma absent_columns_skipped_witness :
  exists s' r,
    calculate_global_score (new_scorer None)
      {| nrows := 1; columns := [("a", [VNum 1])] |}
      {| nrows := 1; columns := [("b", [VNum 1])] |} = inr (s', r)
    /\ res_total_columns r = 0%nat /\ res_anonify_score r == 1.
Proof.
  assert (W1 : wf_frame {| nrows := 1; columns := [("a", [VNum 1])] |})
    by (split; [apply NoDup_singleton | repeat constructor]).
  assert (W2 : wf_frame {| nrows := 1; columns := [("b", [VNum 1])] |})
    by (split; [apply NoDup_singleton | repeat constructor]).
  destruct (proj2 (absent_columns_skipped (new_scorer None)
                     {| nrows := 1; columns := [("a", [VNum 1])] |}
                     {| nrows := 1; columns := [("b", [VNum 1])] |}
                     W1 W2 eq_refl))
    as [s' [r [Hc [_ [_ [Ht [_ [Hs _]]]]]]]].
  { simpl; intros n [<-|[]] [H|[]]; discriminate. }
  exists s', r; tauto.
Defined.

(** ** Text columns without values *)

(** Claim C10.  For an original column whose cells are all missing, the
    text distance does not divide by the empty distinct count.  Its
    unique-replacement part is 0 and its string-similarity part is 1, so
    it is 0.5 whatever the transformed column. *)
Theorem text_distance_all_missing (x y : column) :
  Forall (fun v => is_missing v = true) x ->
  unique_replacement_dist x y = 0
  /\ string_similarity_dist x y = 1
  /\ text_similarity_distance x y == 1 # 2.
Proof.
  intro H.
  assert (E : str_cells x = []).
  { unfold str_cells, dropna; rewrite (dropna_all_missing 0 x H); reflexivity. }
  assert (U : unique_replacement_dist x y = 0)
    by (unfold unique_replacement_dist; rewrite E; reflexivity).
  assert (S : string_similarity_dist x y = 1)
    by (unfold string_similarity_dist; rewrite E; reflexivity).
  split; [exact U | split; [exact S|]].
  unfold text_similarity_distance; rewrite U, S; vm_compute; reflexivity.
Qed.

(** Witness of [text_distance_all_missing] on [None, None] against [x, y]. *)
Lemma text_distance_all_missing_witness :
  text_similarity_distance [VNone; VNone] [VStr "x"; VStr "y"] == 1 # 2.
Proof.
  apply (text_distance_all_missing [VNone; VNone] [VStr "x"; VStr "y"]).
  repeat constructor.
Defined.

(** * Further properties of the scoring module *)

(** ** Numerical metrics *)

Lemma to_numeric_length l l' : to_numeric l = Some l' -> length l' = length l.
Proof.
  revert l'; induction l as [|v l IH]; intros l' H; simpl in H.
  - injection H as <-; reflexivity.
  - destruct (to_number v), (to_numeric l) as [qs|] eqn:E; try discriminate.
    injection H as <-; simpl; f_equal; apply IH; reflexivity.
Qed.

Lemma length_vals l : length (vals l) = length l.
Proof. apply length_map. Qed.

Lemma py_min_l a b : a <= b -> py_min a b = a.
Proof. intro H; unfold py_min; apply Qle_bool_iff in H; rewrite H; reflexivity. Qed.

Lemma py_max_zero a b : a == 0 -> b == 0 -> py_max a b == 0.
Proof. intros; unfold py_max; destruct (Qle_bool b a); assumption. Qed.

Lemma py_min_zero a b : a == 0 -> b == 0 -> py_min a b == 0.
Proof. intros; unfold py_min; destruct (Qle_bool a b); assumption. Qed.

Lemma py_min_one_zero q : q == 0 -> py_min 1 q == 0.
Proof.
  intro H; unfold py_min; destruct (Qle_bool 1 q) eqn:E; [|exact H].
  apply Qle_bool_iff in E; lra.
Qed.

Lemma fold_py_max_zero t a :
  a == 0 -> Forall (fun q => q == 0) t -> fold_left py_max t a == 0.
Proof.
  revert a; induction t as [|b t IH]; intros a Ha Ht; simpl; [exact Ha|].
  inversion Ht; subst; apply IH; [apply py_max_zero|]; assumption.
Qed.

Lemma fold_py_min_zero t a :
  a == 0 -> Forall (fun q => q == 0) t -> fold_left py_min t a == 0.
Proof.
  revert a; induction t as [|b t IH]; intros a Ha Ht; simpl; [exact Ha|].
  inversion Ht; subst; apply IH; [apply py_min_zero|]; assumption.
Qed.

Lemma list_max_zero l : Forall (fun q => q == 0) l -> list_max l == 0.
Proof.
  intro H; destruct l as [|a t]; simpl; [reflexivity|].
  inversion H; subst; apply fold_py_max_zero; assumption.
Qed.

Lemma list_min_zero l : Forall (fun q => q == 0) l -> list_min l == 0.
Proof.
  intro H; destruct l as [|a t]; simpl; [reflexivity|].
  inversion H; subst; apply fold_py_min_zero; assumption.
Qed.

Lemma cdf_area_self u l : cdf_area u u l == 0.
Proof.
  induction l as [|a t IH]; [reflexivity|].
  destruct t as [|b t']; [reflexivity|].
  change (cdf_area u u (a :: b :: t'))
    with (Qabs (ecdf u a - ecdf u a) * (b - a) + cdf_area u u (b :: t')).
  rewrite IH.
  assert (E : ecdf u a - ecdf u a == 0) by ring.
  rewrite E; reflexivity.
Qed.

Lemma wasserstein_distance_self l : wasserstein_distance l l == 0.
Proof. apply cdf_area_self. Qed.

Lemma ks_2samp_self l : ks_2samp l l == 0.
Proof.
  unfold ks_2samp; cbv zeta.
  set (s := QSort.sort l).
  set (d := map (fun t => ecdf s t - ecdf s t) (s ++ s)).
  assert (Hd : Forall (fun q => q == 0) d).
  { unfold d; apply List.Forall_forall; intros q Hq.
    apply in_map_iff in Hq as [t [<- _]]; ring. }
  pose proof (list_max_zero d Hd) as Mx.
  pose proof (list_min_zero d Hd) as Mn.
  assert (Hc : np_clip (- list_min d) 0 1 == 0).
  { unfold np_clip.
    assert (Hm : py_max (- list_min d) 0 == 0)
      by (apply py_max_zero; [rewrite Mn|]; reflexivity).
    rewrite py_min_l by (rewrite Hm; discriminate).
    exact Hm. }
  destruct (Qle_bool _ _); assumption.
Qed.

(** X1.  When a cleaned column has no value, or a non-missing cell does not
    parse as a number ([astype(float)] raises), the Wasserstein,
    Kolmogorov-Smirnov and mean-shift distances are all 1. *)
Theorem numeric_metrics_fallback (x y : column) :
  to_numeric (vals (dropna x)) = None \/ to_numeric (vals (dropna y)) = None
  \/ dropna x = [] \/ dropna y = [] ->
  wasserstein_distance_normalized x y = 1
  /\ kolmogorov_smirnov_distance x y = 1
  /\ mean_shift_distance x y = 1.
Proof.
  intro H.
  unfold wasserstein_distance_normalized, kolmogorov_smirnov_distance,
    mean_shift_distance.
  destruct (to_numeric (vals (dropna x))) as [lx|] eqn:Ex;
    [|split; [|split]; reflexivity].
  destruct (to_numeric (vals (dropna y))) as [ly|] eqn:Ey;
    [|split; [|split]; reflexivity].
  assert (Z : (length lx =? 0)%nat || (length ly =? 0)%nat = true).
  { destruct H as [H|[H|[H|H]]]; try congruence.
    - rewrite H in Ex; simpl in Ex; injection Ex as <-; reflexivity.
    - rewrite H in Ey; simpl in Ey; injection Ey as <-; apply orb_true_r. }
  rewrite Z; split; [|split]; reflexivity.
Qed.

(** Witness of [numeric_metrics_fallback]: the cell "abc" does not parse. *)
Lemma numeric_metrics_fallback_witness :
  wasserstein_distance_normalized [VStr "abc"; VNum 1] [VNum 1; VNum 2] = 1
  /\ kolmogorov_smirnov_distance [VStr "abc"; VNum 1] [VNum 1; VNum 2] = 1
  /\ mean_shift_distance [VStr "abc"; VNum 1] [VNum 1; VNum 2] = 1.
Proof.
  apply numeric_metrics_fallback; left; vm_compute; reflexivity.
Defined.

(** X2.  A column whose non-missing cells are finite numbers or plain
    decimal strings, compared with itself, has Wasserstein and
    Kolmogorov-Smirnov distance 0, and mean-shift distance 0 when it has at
    least two values (in exact arithmetic: no value is [inf] or [NaN] and
    no sum overflows). *)
Theorem numeric_metrics_self (x : column) (l : list Q) :
  to_numeric (vals (dropna x)) = Some l -> l <> [] ->
  wasserstein_distance_normalized x x == 0
  /\ kolmogorov_smirnov_distance x x == 0
  /\ ((2 <= length l)%nat -> mean_shift_distance x x == 0).
Proof.
  intros Hx Hl.
  assert (L : (length l =? 0)%nat = false)
    by (apply Nat.eqb_neq; destruct l; [congruence | discriminate]).
  unfold wasserstein_distance_normalized, kolmogorov_smirnov_distance,
    mean_shift_distance.
  rewrite Hx, L; simpl orb; cbv iota zeta.
  split; [|split].
  - pose proof (wasserstein_distance_self l) as W.
    destruct (Qeq_bool (list_max l - list_min l) 0).
    + rewrite (proj2 (Qeq_bool_iff _ _) W); reflexivity.
    + apply py_min_one_zero; rewrite W; reflexivity.
  - apply ks_2samp_self.
  - intro H2.
    assert (M : Qabs (np_mean l - np_mean l) == 0)
      by (assert (E : np_mean l - np_mean l == 0) by ring; rewrite E; reflexivity).
    unfold pd_std.
    assert (L1 : (length l <=? 1)%nat = false) by (apply Nat.leb_gt; lia).
    rewrite L1; cbv zeta.
    destruct (Qeq_bool (py_sqrt _) 0).
    + rewrite (proj2 (Qeq_bool_iff _ _) M); reflexivity.
    + apply py_min_one_zero; rewrite M; reflexivity.
Qed.

(** Witness of [numeric_metrics_self] on the column [1, None, 3]. *)
Lemma numeric_metrics_self_witness :
  wasserstein_distance_normalized [VNum 1; VNone; VNum 3] [VNum 1; VNone; VNum 3] == 0
  /\ kolmogorov_smirnov_distance [VNum 1; VNone; VNum 3] [VNum 1; VNone; VNum 3] == 0
  /\ mean_shift_distance [VNum 1; VNone; VNum 3] [VNum 1; VNone; VNum 3] == 0.
Proof.
  destruct (numeric_metrics_self [VNum 1; VNone; VNum 3] [1; 3] eq_refl
              ltac:(discriminate)) as [H1 [H2 H3]].
  split; [exact H1 | split; [exact H2 | apply H3; simpl; lia]].
Defined.

(** X3.  When the original column has exactly one non-missing cell, the
    mean-shift distance is 1 whatever the transformed column, also for the
    column itself: pandas' [std()] of one value is [NaN], and
    [min(1.0, mean_diff / NaN)] is 1.0. *)
Theorem mean_shift_single_value (x y : column) :
  length (dropna x) = 1%nat -> mean_shift_distance x y = 1.
Proof.
  intro H; unfold mean_shift_distance.
  destruct (to_numeric (vals (dropna x))) as [lx|] eqn:Ex; [|reflexivity].
  destruct (to_numeric (vals (dropna y))) as [ly|] eqn:Ey; [|reflexivity].
  apply to_numeric_length in Ex; rewrite length_vals, H in Ex.
  rewrite Ex; simpl orb.
  destruct (length ly =? 0)%nat; [reflexivity|]; cbv iota zeta.
  unfold pd_std; rewrite Ex; reflexivity.
Qed.

(** Witness of [mean_shift_single_value] on the column [None, 5] against
    itself. *)
Lemma mean_shift_single_value_witness :
  mean_shift_distance [VNone; VNum 5] [VNone; VNum 5] = 1.
Proof. apply mean_shift_single_value; reflexivity. Defined.

Lemma numerical_values x :
  detect_column_type x = Numerical ->
  exists l, to_numeric (vals (dropna x)) = Some l /\ l <> []
            /\ length l = length (dropna x).
Proof.
  unfold detect_column_type.
  destruct (vals (dropna x)) as [|v t] eqn:Ev; [discriminate|].
  destruct (to_numeric (v :: t)) as [l|] eqn:En.
  - intros _; exists l; split; [reflexivity|].
    pose proof (to_numeric_length _ _ En) as Hl.
    rewrite <- (length_vals (dropna x)), Ev, <- Hl.
    split; [destruct l; [discriminate | congruence] | reflexivity].
  - destruct (Qlt_bool _ _); discriminate.
Qed.

(** X4.  A column of finite numbers or plain decimal strings (the model's
    numerical columns) has column distance 0 to itself when it has at
    least two non-missing cells, and 1/3 when it has exactly one (its
    mean-shift part is then 1), in exact arithmetic. *)
Theorem numerical_column_self_distance (x : column) :
  detect_column_type x = Numerical ->
  ((2 <= length (dropna x))%nat -> calculate_column_distance x x == 0)
  /\ (length (dropna x) = 1%nat -> calculate_column_distance x x == 1 # 3).
Proof.
  intro H.
  destruct (numerical_values x H) as [l [Hl [Hne Hlen]]].
  destruct (numeric_metrics_self x l Hl Hne) as [W [K M]].
  unfold calculate_column_distance; rewrite H.
  unfold np_mean, q_sum; simpl fold_right; simpl length.
  rewrite W, K.
  split.
  - intro H2; rewrite M by lia; reflexivity.
  - intro H1; rewrite (mean_shift_single_value x x H1); reflexivity.
Qed.

(** Witness of [numerical_column_self_distance] on [1, 2] and on [7]. *)
Lemma numerical_column_self_distance_witness :
  calculate_column_distance [VNum 1; VNum 2] [VNum 1; VNum 2] == 0
  /\ calculate_column_distance [VNum 7] [VNum 7] == 1 # 3.
Proof.
  split.
  - apply (proj1 (numerical_column_self_distance [VNum 1; VNum 2] eq_refl)).
    vm_compute; lia.
  - apply (proj2 (numerical_column_self_distance [VNum 7] eq_refl)); reflexivity.
Defined.

(** ** Set overlap *)

Lemma uniq_acc_in v acc l : In v (uniq_acc acc l) -> In v acc \/ In v l.
Proof.
  revert acc; induction l as [|w l IH]; intros acc H; simpl in H; [left; exact H|].
  destruct (IH _ H) as [H1|H1]; [|right; right; exact H1].
  unfold uniq_step in H1; destruct (memv w acc); [left; exact H1|].
  apply in_app_or in H1 as [H1|[<-|[]]]; [left; exact H1 | right; left; reflexivity].
Qed.

Lemma in_unique v l : In v (unique l) -> In v l.
Proof. intro H; destruct (uniq_acc_in v [] l H) as [[]|H1]; exact H1. Qed.

Lemma filter_none {A} (f : A -> bool) l :
  (forall v, In v l -> f v = false) -> List.filter f l = [].
Proof.
  induction l as [|v l IH]; intro H; simpl; [reflexivity|].
  rewrite (H v (or_introl eq_refl)); apply IH; intros; apply H; right; assumption.
Qed.

(** X5.  When no non-missing value of the original column occurs among the
    non-missing values of the transformed column, and the original column
    has a value, the Jaccard distance is 1. *)
Theorem jaccard_distance_disjoint (x y : column) :
  (forall v, In v (vals (dropna x)) -> memv v (vals (dropna y)) = false) ->
  dropna x <> [] ->
  jaccard_distance x y == 1.
Proof.
  intros Hd Hx; unfold jaccard_distance.
  assert (Ux : (length (unique (vals (dropna x))) =? 0)%nat = false).
  { apply Nat.eqb_neq.
    assert (vals (dropna x) <> []) by (rewrite vals_nil; exact Hx).
    pose proof (unique_length_pos _ H); lia. }
  rewrite Ux; simpl andb; cbv iota zeta.
  rewrite filter_none.
  - destruct (0 <? _)%nat; [|reflexivity].
    unfold QofN; simpl; unfold Qdiv; rewrite Qmult_0_l; reflexivity.
  - intros v Hv.
    apply in_unique in Hv.
    destruct (memv v (unique (vals (dropna y)))) eqn:E; [|reflexivity].
    unfold memv in E; apply existsb_exists in E as [w [Hw Hvw]].
    apply in_unique in Hw.
    rewrite <- (Hd v Hv); symmetry; unfold memv; apply existsb_exists; exists w; tauto.
Qed.

(** Witness of [jaccard_distance_disjoint] on [a, b] against [c, None]. *)
Lemma jaccard_distance_disjoint_witness :
  jaccard_distance [VStr "a"; VStr "b"] [VStr "c"; VNone] == 1.
Proof.
  apply jaccard_distance_disjoint; [|discriminate].
  simpl; intros v [<-|[<-|[]]]; reflexivity.
Defined.

(** ** Missing cells *)

Lemma vals_dropna x : vals (dropna x) = List.filter (fun v => negb (is_missing v)) x.
Proof. apply vals_dropna_from. Qed.

(** X6.  The classifier, the Jaccard distance and the three numeric metrics
    see only the sequence of non-missing cells: when two columns hold the
    same non-missing values in the same order, moving, adding or removing
    missing cells changes none of them. *)
Theorem metrics_ignore_missing_positions (x x' y y' : column) :
  List.filter (fun v => negb (is_missing v)) x = List.filter (fun v => negb (is_missing v)) x' ->
  List.filter (fun v => negb (is_missing v)) y = List.filter (fun v => negb (is_missing v)) y' ->
  detect_column_type x = detect_column_type x'
  /\ jaccard_distance x y = jaccard_distance x' y'
  /\ wasserstein_distance_normalized x y = wasserstein_distance_normalized x' y'
  /\ kolmogorov_smirnov_distance x y = kolmogorov_smirnov_distance x' y'
  /\ mean_shift_distance x y = mean_shift_distance x' y'.
Proof.
  intros Hx Hy.
  unfold detect_column_type, jaccard_distance, wasserstein_distance_normalized,
    kolmogorov_smirnov_distance, mean_shift_distance.
  rewrite !vals_dropna, Hx, Hy.
  repeat split.
Qed.

(** Witness of [metrics_ignore_missing_positions]: [a, None, b] and
    [None, a, b]. *)
Lemma metrics_ignore_missing_positions_witness :
  jaccard_distance [VStr "a"; VNone; VStr "b"] [VStr "c"]
  = jaccard_distance [VNone; VStr "a"; VStr "b"] [VStr "c"; VNone].
Proof.
  apply (metrics_ignore_missing_positions [VStr "a"; VNone; VStr "b"]
           [VNone; VStr "a"; VStr "b"] [VStr "c"] [VStr "c"; VNone]);
    reflexivity.
Defined.

(** ** Frames with the same columns *)

(** X7.  When every column name of the original frame is a column of the
    transformed frame (and the shapes agree), every column is scored, in
    the order of the original frame.  Both frames have distinct column
    names, as [pd.read_csv] builds them. *)
Theorem all_shared_columns_scored (s : scorer) (o a : frame) :
  wf_frame o -> wf_frame a ->
  shape o = shape a ->
  (forall n, In n (map fst (columns o)) -> In n (map fst (columns a))) ->
  exists s' r, calculate_global_score s o a = inr (s', r)
    /\ map fst (res_column_scores r) = map fst (columns o)
    /\ map fst (res_column_types r) = map fst (columns o)
    /\ res_total_columns r = length (columns o).
Proof.
  intros _ _ Hs Hn.
  pose proof (calculate_global_score_ok s o a Hs) as Hc.
  pose proof (score_columns_names o a) as [N1 N2].
  rewrite (filter_id (fun nc => has_column (columns a) (fst nc)) (columns o)) in N1, N2.
  2, 3: intros nc Hin; unfold has_column;
        destruct (get_column (columns a) (fst nc)) eqn:E; [reflexivity|];
        apply get_column_None in E; exfalso; apply E, Hn, in_map; exact Hin.
  destruct (score_columns o a) as [cds tys]; simpl in *.
  eexists _, _; split; [exact Hc|]; simpl.
  rewrite map_map; simpl.
  split; [exact N1|]; split; [exact N2|].
  rewrite <- (length_map fst cds), N1, length_map; reflexivity.
Qed.

(** Witness of [all_shared_columns_scored] on two frames with columns
    [a] and [b] listed in different orders. *)
Lemma all_shared_columns_scored_witness :
  exists s' r,
    calculate_global_score (new_scorer None)
      {| nrows := 1; columns := [("a", [VNum 1]); ("b", [VStr "x"])] |}
      {| nrows := 1; columns := [("b", [VStr "y"]); ("a", [VNum 2])] |} = inr (s', r)
    /\ map fst (res_column_scores r) = ["a"; "b"]%string
    /\ map fst (res_column_types r) = ["a"; "b"]%string
    /\ res_total_columns r = 2%nat.
Proof.
  apply (all_shared_columns_scored (new_scorer None)
           {| nrows := 1; columns := [("a", [VNum 1]); ("b", [VStr "x"])] |}
           {| nrows := 1; columns := [("b", [VStr "y"]); ("a", [VNum 2])] |}).
  - split; [|repeat constructor]; simpl.
    constructor; [intro Hin; inversion Hin as [|? ? ? Hin']; inversion Hin' | apply NoDup_singleton].
  - split; [|repeat constructor]; simpl.
    constructor; [intro Hin; inversion Hin as [|? ? ? Hin']; inversion Hin' | apply NoDup_singleton].
  - reflexivity.
  - simpl; intros n [<-|[<-|[]]]; tauto.
Defined.

(** ** The scorer's state *)



(** ** [SequenceMatcher(None, s, s).ratio()] *)

Lemma run_len_diag a i :
  (length a < 200)%nat -> run_len a a 0 0 (S i) i i = S i.
Proof.
  intro H.
  assert (P : forall c, popular a c = false)
    by (intro c; unfold popular; apply andb_false_intro1, Nat.leb_gt; exact H).
  induction i as [|i IH]; simpl run_len; rewrite Ascii.eqb_refl, P; simpl;
    [reflexivity|].
  rewrite Nat.sub_0_r; f_equal; exact IH.
Qed.

Lemma fold_rows (f : nat * nat * nat -> nat -> nat * nat * nat) m :
  (forall i, (i < m)%nat -> f (0, 0, i)%nat i = (0, 0, S i)%nat) ->
  fold_left f (seq 0 m) (0, 0, 0)%nat = (0, 0, m)%nat.
Proof.
  induction m as [|m IH]; intro H; [reflexivity|].
  rewrite seq_S, fold_left_app, IH by (intros; apply H; lia); simpl.
  apply H; lia.
Qed.

Lemma fold_keep {A B} (g : A -> B -> A) js best :
  (forall j, In j js -> g best j = best) -> fold_left g js best = best.
Proof.
  induction js as [|j js IH]; intro H; simpl; [reflexivity|].
  rewrite (H j (or_introl eq_refl)); apply IH; intros; apply H; right; assumption.
Qed.

Lemma scan_best_self a :
  (length a < 200)%nat -> scan_best a a 0 (length a) 0 (length a) = (0, 0, length a)%nat.
Proof.
  intro H; unfold scan_best; rewrite Nat.sub_0_r.
  apply fold_rows; intros i Hi; cbv beta.
  assert (E : seq 0 (length a) = seq 0 i ++ i :: seq (S i) (length a - S i))
    by (replace (length a) with (i + S (length a - S i))%nat at 1 by lia;
        rewrite seq_app; reflexivity).
  rewrite E, fold_left_app, (fold_keep _ (seq 0 i)).
  2: { intros j Hj; apply in_seq in Hj; cbv zeta; simpl snd.
       destruct (run_len_bound a a 0 0 (S i) i j) as [_ R]; try lia.
       rewrite (proj2 (Nat.ltb_ge _ _)) by lia; reflexivity. }
  cbn [fold_left]; rewrite run_len_diag by exact H; cbv zeta; simpl snd.
  rewrite (proj2 (Nat.ltb_lt i (S i))) by lia.
  replace (i + 1 - S i)%nat with 0%nat by lia.
  apply fold_keep; intros j Hj; apply in_seq in Hj; cbv zeta; simpl snd.
  destruct (run_len_bound a a 0 0 (S i) i j) as [R _]; try lia.
  rewrite (proj2 (Nat.ltb_ge _ _)) by lia; reflexivity.
Qed.

Lemma find_longest_match_self a :
  (length a < 200)%nat ->
  find_longest_match a a 0 (length a) 0 (length a) = (0, 0, length a)%nat.
Proof.
  intro H; unfold find_longest_match; rewrite scan_best_self by exact H.
  simpl fst; cbn [extend_back].
  destruct (length a) as [|m]; [reflexivity|].
  cbn [extend_fwd].
  rewrite (proj2 (Nat.ltb_ge (0 + S m) (S m))) by lia; reflexivity.
Qed.

Lemma matched_self a :
  (0 < length a < 200)%nat -> matched a a (S (length a)) 0 (length a) 0 (length a) = length a.
Proof.
  intro H; cbn [matched]; rewrite find_longest_match_self by lia.
  rewrite (proj2 (Nat.eqb_neq (length a) 0)) by lia.
  rewrite (proj2 (Nat.ltb_ge (0 + length a) (length a))) by lia.
  simpl; lia.
Qed.

(** X12.  A string of fewer than 200 characters has similarity ratio 1
    with itself (the empty string included).  The bound matters: from 200
    characters on, [autojunk] drops the popular characters from the
    matcher's index. *)
Theorem seq_ratio_self (a : chars) :
  (length a < 200)%nat -> seq_ratio a a == 1.
Proof.
  intro H; unfold seq_ratio.
  destruct (length a + length a =? 0)%nat eqn:E; [reflexivity|].
  apply Nat.eqb_neq in E.
  rewrite matched_self by lia.
  assert (Hq : 0 < QofN (length a)) by (apply QofN_pos; lia).
  unfold QofN in *; rewrite Nat2Z.inj_add, inject_Z_plus.
  field; lra.
Qed.

(** Witness of [seq_ratio_self] on "hello". *)
Lemma seq_ratio_self_witness :
  (length (list_ascii_of_string "hello") < 200)%nat
  /\ seq_ratio (list_ascii_of_string "hello") (list_ascii_of_string "hello") == 1.
Proof. split; [vm_compute; lia | apply seq_ratio_self; vm_compute; lia]. Defined.

(** ** Text columns against themselves *)

Lemma q_sum_ones l : Forall (fun q => q == 1) l -> q_sum l == QofN (length l).
Proof.
  induction 1 as [|q l Hq _ IH]; [reflexivity|].
  unfold q_sum in *; simpl fold_right; rewrite Hq, IH.
  cbn [length]; unfold QofN; rewrite Nat2Z.inj_succ; unfold Z.succ; rewrite inject_Z_plus.
  change (inject_Z 1) with (1 : Q); ring.
Qed.

Lemma np_mean_ones l : l <> [] -> Forall (fun q => q == 1) l -> np_mean l == 1.
Proof.
  intros Hl H; unfold np_mean; rewrite (q_sum_ones l H).
  assert (0 < QofN (length l))
    by (apply QofN_pos; destruct l; [contradiction | simpl; lia]).
  field; lra.
Qed.

Lemma unique_replacement_dist_self x : unique_replacement_dist x x == 0.
Proof.
  unfold unique_replacement_dist.
  set (u := unique (map VStr (str_cells x))).
  destruct (length u =? 0)%nat eqn:E0; [reflexivity|].
  apply Nat.eqb_neq in E0.
  rewrite (filter_id (fun v => memv v u) u) by (intros; apply memv_in; assumption).
  assert (Hq : 0 < QofN (length u)) by (apply QofN_pos; lia).
  field; lra.
Qed.

(** X13.  A text column whose non-missing cells are not all missing, and
    whose cells are shorter than 200 characters as strings, has text
    distance 0 to itself: no value is replaced and every compared pair of
    strings has ratio 1.  So a text column's own column distance is 0. *)
Theorem text_column_self_distance (x : column) :
  str_cells x <> [] ->
  (forall s, In s (str_cells x) -> (length (list_ascii_of_string s) < 200)%nat) ->
  text_similarity_distance x x == 0
  /\ (detect_column_type x = Text -> calculate_column_distance x x == 0).
Proof.
  intros Hne Hlen.
  assert (Hs : string_similarity_dist x x == 0).
  { unfold string_similarity_dist.
    set (xs := str_cells x) in *.
    assert (HL : (length xs =? 0)%nat = false)
      by (destruct xs; [contradiction | reflexivity]).
    rewrite HL; simpl orb.
    assert (Hm : (0 < Nat.min (Nat.min (length xs) (length xs)) 100)%nat)
      by (apply Nat.eqb_neq in HL; lia).
    set (m := Nat.min (Nat.min (length xs) (length xs)) 100) in *.
    assert (Hall : Forall (fun q => q == 1)
      (map (fun i => seq_ratio (list_ascii_of_string (nth i xs ""%string))
                               (list_ascii_of_string (nth i xs ""%string))) (seq 0 m))).
    { apply List.Forall_forall; intros q Hq.
      apply in_map_iff in Hq as [i [<- Hi]]; apply in_seq in Hi.
      apply seq_ratio_self, Hlen, nth_In; unfold m in Hi; lia. }
    revert Hall.
    match goal with
    | |- context [match ?L with [] => _ | _ :: _ => _ end] =>
        destruct L as [|q l] eqn:Em; intro Hall
    end.
    - apply (f_equal (@length Q)) in Em; rewrite length_map, length_seq in Em.
      simpl in Em; lia.
    - rewrite (np_mean_ones (q :: l)) by (discriminate || exact Hall).
      reflexivity. }
  assert (Ht : text_similarity_distance x x == 0).
  { unfold text_similarity_distance, np_mean, q_sum; simpl fold_right; simpl length.
    rewrite unique_replacement_dist_self, Hs; reflexivity. }
  split; [exact Ht|].
  intro Hd; unfold calculate_column_distance; rewrite Hd; exact Ht.
Qed.

(** Witness of [text_column_self_distance] on ["ab", None, "c"]. *)
Lemma text_column_self_distance_witness :
  text_similarity_distance [VStr "ab"; VNone; VStr "c"] [VStr "ab"; VNone; VStr "c"] == 0.
Proof.
  refine (proj1 (text_column_self_distance [VStr "ab"; VNone; VStr "c"] _ _)).
  - vm_compute; discriminate.
  - intros s Hs; vm_compute in Hs.
    destruct Hs as [<-|[<-|[]]]; vm_compute; lia.
Defined.

(** ** Symmetry of the Kolmogorov-Smirnov distance *)

Lemma fold_py_max_spec t a :
  In (fold_left py_max t a) (a :: t) /\ (forall x, In x (a :: t) -> x <= fold_left py_max t a).
Proof.
  revert a; induction t as [|b t IH]; intro a; simpl.
  - split; [left; reflexivity | intros x [<-|[]]; lra].
  - destruct (IH (py_max a b)) as [I1 I2]; split.
    + destruct I1 as [E|E]; [|right; right; exact E].
      rewrite <- E; unfold py_max; destruct (Qle_bool b a); [left|right; left]; reflexivity.
    + intros x [<-|[<-|Hx]].
      * eapply Qle_trans; [apply py_max_ge_l | apply I2; left; reflexivity].
      * eapply Qle_trans; [apply py_max_ge_r | apply I2; left; reflexivity].
      * apply I2; right; exact Hx.
Qed.

Lemma fold_py_min_spec t a :
  In (fold_left py_min t a) (a :: t) /\ (forall x, In x (a :: t) -> fold_left py_min t a <= x).
Proof.
  revert a; induction t as [|b t IH]; intro a; simpl.
  - split; [left; reflexivity | intros x [<-|[]]; lra].
  - destruct (IH (py_min a b)) as [I1 I2]; split.
    + destruct I1 as [E|E]; [|right; right; exact E].
      rewrite <- E; unfold py_min; destruct (Qle_bool a b); [left|right; left]; reflexivity.
    + intros x [<-|[<-|Hx]].
      * eapply Qle_trans; [apply I2; left; reflexivity | apply py_min_le_l].
      * eapply Qle_trans; [apply I2; left; reflexivity | apply py_min_le_r].
      * apply I2; right; exact Hx.
Qed.

Lemma list_max_char l M :
  (exists y, In y l /\ y == M) -> (forall x, In x l -> x <= M) -> list_max l == M.
Proof.
  intros [y [Hy HM]] Hle; destruct l as [|a t]; [destruct Hy|].
  destruct (fold_py_max_spec t a) as [I1 I2]; unfold list_max.
  apply Qle_antisym; [apply Hle; exact I1 | rewrite <- HM; apply I2; exact Hy].
Qed.

Lemma list_min_char l m :
  (exists y, In y l /\ y == m) -> (forall x, In x l -> m <= x) -> list_min l == m.
Proof.
  intros [y [Hy Hm]] Hle; destruct l as [|a t]; [destruct Hy|].
  destruct (fold_py_min_spec t a) as [I1 I2]; unfold list_min.
  apply Qle_antisym; [rewrite <- Hm; apply I2; exact Hy | apply Hle; exact I1].
Qed.

Lemma np_clip_id a : 0 <= a <= 1 -> np_clip a 0 1 = a.
Proof.
  intros [H0 H1]; unfold np_clip, py_max, py_min.
  rewrite (proj2 (Qle_bool_iff 0 a) H0), (proj2 (Qle_bool_iff a 1) H1); reflexivity.
Qed.

Lemma ecdf_top l t :
  l <> [] -> (forall x, In x l -> x <= t) -> ecdf l t == 1.
Proof.
  intros Hl Ht; unfold ecdf, count_le.
  rewrite (filter_id _ l) by (intros v Hv; apply Qle_bool_iff, Ht, Hv).
  assert (0 < QofN (length l)) by (apply QofN_pos; destruct l; [contradiction | simpl; lia]).
  field; lra.
Qed.

Lemma sort_nonempty l : l <> [] -> QSort.sort l <> [].
Proof.
  intros Hl E; apply Hl.
  pose proof (Permutation.Permutation_length (QSort.Permuted_sort l)) as P.
  rewrite E in P; destruct l; [reflexivity | discriminate].
Qed.

Lemma ks_2samp_sym d1 d2 :
  d1 <> [] -> d2 <> [] -> ks_2samp d1 d2 == ks_2samp d2 d1.
Proof.
  intros H1 H2; unfold ks_2samp.
  pose proof (sort_nonempty d1 H1) as HA; pose proof (sort_nonempty d2 H2) as HB.
  set (A := QSort.sort d1) in *; set (B := QSort.sort d2) in *.
  set (L1 := map (fun t => ecdf A t - ecdf B t) (A ++ B)).
  set (L2 := map (fun t => ecdf B t - ecdf A t) (B ++ A)).
  assert (Hb : forall q, In q L1 -> -1 <= q <= 1).
  { intros q Hq; apply in_map_iff in Hq as [t [<- _]].
    pose proof (ecdf_in01 A t); pose proof (ecdf_in01 B t); lra. }
  assert (HL1 : L1 <> []) by (unfold L1; destruct A; [contradiction | discriminate]).
  (* the largest data point, where both distribution functions are 1 *)
  assert (Hz : exists q, In q L1 /\ q == 0).
  { assert (HAB : A ++ B <> []) by (destruct A; [contradiction | discriminate]).
    assert (Htm : In (list_max (A ++ B)) (A ++ B)
                  /\ forall x, In x (A ++ B) -> x <= list_max (A ++ B))
      by (unfold list_max; destruct (A ++ B) as [|a0 t0]; [contradiction|];
          apply fold_py_max_spec).
    destruct Htm as [I1 I2].
    exists (ecdf A (list_max (A ++ B)) - ecdf B (list_max (A ++ B))); split.
    - unfold L1; apply (in_map (fun t => ecdf A t - ecdf B t)); exact I1.
    - rewrite !ecdf_top; [reflexivity | | | |]; try assumption;
        intros x Hx; apply I2; apply in_app_iff; tauto. }
  set (M := list_max L1); set (m := list_min L1).
  assert (HM : In M L1 /\ forall x, In x L1 -> x <= M).
  { unfold M, list_max; destruct L1 as [|a t]; [contradiction|]; apply fold_py_max_spec. }
  assert (Hm : In m L1 /\ forall x, In x L1 -> m <= x).
  { unfold m, list_min; destruct L1 as [|a t]; [contradiction|]; apply fold_py_min_spec. }
  assert (Hflip : forall t, In t (B ++ A) ->
            In (ecdf A t - ecdf B t) L1 /\ ecdf B t - ecdf A t == - (ecdf A t - ecdf B t)).
  { intros t Ht; split; [|ring].
    unfold L1; apply (in_map (fun t => ecdf A t - ecdf B t)), in_app_iff;
    apply in_app_iff in Ht; tauto. }
  assert (Hback : forall p, In p L1 -> exists q, In q L2 /\ q == - p).
  { intros p Hp; unfold L1 in Hp; apply in_map_iff in Hp as [t [<- Ht]].
    exists (ecdf B t - ecdf A t); split; [|ring].
    unfold L2; apply (in_map (fun t => ecdf B t - ecdf A t)), in_app_iff;
    apply in_app_iff in Ht; tauto. }
  assert (E2 : list_max L2 == - m).
  { apply list_max_char.
    - destruct (Hback m (proj1 Hm)) as [q [Hq Eq]]; exists q; split; assumption.
    - intros x Hx; unfold L2 in Hx; apply in_map_iff in Hx as [t [<- Ht]].
      destruct (Hflip t Ht) as [Hin Eq]; rewrite Eq.
      pose proof (proj2 Hm _ Hin); lra. }
  assert (E3 : list_min L2 == - M).
  { apply list_min_char.
    - destruct (Hback M (proj1 HM)) as [q [Hq Eq]]; exists q; split; assumption.
    - intros x Hx; unfold L2 in Hx; apply in_map_iff in Hx as [t [<- Ht]].
      destruct (Hflip t Ht) as [Hin Eq]; rewrite Eq.
      pose proof (proj2 HM _ Hin); lra. }
  destruct Hz as [z [Hz Ez]].
  pose proof (proj2 HM z Hz); pose proof (proj2 Hm z Hz).
  pose proof (Hb M (proj1 HM)); pose proof (Hb m (proj1 Hm)).
  fold L1 L2 M m.
  rewrite (np_clip_id (- m)) by lra.
  rewrite (np_clip_id (- list_min L2)) by (rewrite E3; lra).
  destruct (Qle_bool (- m) M) eqn:Q1, (Qle_bool (- list_min L2) (list_max L2)) eqn:Q2;
    qbool; lra.
Qed.

(** X14.  The Kolmogorov-Smirnov distance is symmetric in its two columns
    (unlike the normalised Wasserstein distance, which divides by the range
    of the first column): the two-sided statistic is the largest absolute
    gap between the two distribution functions, and the fallbacks to 1 do
    not depend on the order. *)
Theorem kolmogorov_smirnov_distance_symmetric (x y : column) :
  kolmogorov_smirnov_distance x y == kolmogorov_smirnov_distance y x.
Proof.
  unfold kolmogorov_smirnov_distance.
  destruct (to_numeric (vals (dropna x))) as [lx|], (to_numeric (vals (dropna y))) as [ly|];
    try reflexivity.
  destruct (length lx =? 0)%nat eqn:Ex, (length ly =? 0)%nat eqn:Ey; simpl; try reflexivity.
  apply Nat.eqb_neq in Ex, Ey.
  apply ks_2samp_sym; intro E; subst; simpl in *; lia.
Qed.

(** ** Symmetry of the Jaccard distance *)

Lemma value_eqb_sym v w : value_eqb v w = value_eqb w v.
Proof.
  destruct v as [|a|a], w as [|b|b]; simpl; try reflexivity.
  - destruct (Qeq_bool a b) eqn:E, (Qeq_bool b a) eqn:F; try reflexivity;
      qbool; exfalso; (apply E || apply F); symmetry; assumption.
  - apply String.eqb_sym.
Qed.

Lemma value_eqb_trans u v w :
  value_eqb u v = true -> value_eqb v w = true -> value_eqb u w = true.
Proof.
  destruct u as [|a|a], v as [|b|b], w as [|c|c]; simpl; try discriminate; try reflexivity.
  - rewrite !Qeq_bool_iff; intros; eapply Qeq_trans; eassumption.
  - rewrite !String.eqb_eq; intros; congruence.
Qed.

Lemma memv_app v l1 l2 : memv v (l1 ++ l2) = memv v l1 || memv v l2.
Proof. unfold memv; apply existsb_app. Qed.

Lemma memv_cons v w l : memv v (w :: l) = value_eqb v w || memv v l.
Proof. reflexivity. Qed.

Lemma fresh_notmem acc l w : fresh acc l = true -> In w l -> memv w acc = false.
Proof.
  revert acc; induction l as [|v t IH]; intros acc H Hw; [destruct Hw|].
  simpl in H; apply andb_true_iff in H as [H1 H2]; apply negb_true_iff in H1.
  destruct Hw as [<-|Hw]; [exact H1|].
  pose proof (IH _ H2 Hw) as E; rewrite memv_app in E.
  apply orb_false_iff in E; tauto.
Qed.

Lemma fresh_pairs acc l :
  fresh acc l = true -> ForallOrdPairs (fun a b => value_eqb a b = false) l.
Proof.
  revert acc; induction l as [|v t IH]; intros acc H; [constructor|].
  simpl in H; apply andb_true_iff in H as [_ H2].
  constructor; [|exact (IH _ H2)].
  apply List.Forall_forall; intros w Hw.
  pose proof (fresh_notmem _ _ w H2 Hw) as E; rewrite memv_app in E.
  apply orb_false_iff in E as [_ E]; simpl in E.
  rewrite value_eqb_sym; destruct (value_eqb w v); [discriminate | reflexivity].
Qed.

Lemma unique_pairs l : ForallOrdPairs (fun a b => value_eqb a b = false) (unique l).
Proof.
  destruct (uniq_acc_fresh [] l) as [n [Hn Hf]]; unfold unique; rewrite Hn.
  exact (fresh_pairs _ _ Hf).
Qed.

Lemma count_eqv Y a :
  ForallOrdPairs (fun a b => value_eqb a b = false) Y ->
  length (List.filter (fun v => value_eqb v a) Y) = if memv a Y then 1%nat else 0%nat.
Proof.
  induction 1 as [|y Y Hy _ IH]; [reflexivity|].
  rewrite memv_cons; simpl.
  destruct (value_eqb y a) eqn:E.
  - rewrite filter_none; [rewrite value_eqb_sym, E; reflexivity|].
    intros v Hv; destruct (value_eqb v a) eqn:F; [|reflexivity].
    rewrite List.Forall_forall in Hy; pose proof (Hy v Hv) as G.
    rewrite (value_eqb_trans y a v E) in G; [discriminate|].
    rewrite value_eqb_sym; exact F.
  - rewrite value_eqb_sym, E; exact IH.
Qed.

Lemma count_orb {A} (p q : A -> bool) l :
  (forall v, In v l -> p v = true -> q v = false) ->
  length (List.filter (fun v => p v || q v) l)
  = (length (List.filter p l) + length (List.filter q l))%nat.
Proof.
  induction l as [|v l IH]; intro H; [reflexivity|]; simpl.
  specialize (IH (fun w Hw => H w (or_intror Hw))).
  destruct (p v) eqn:P; [rewrite (H v (or_introl eq_refl) P)|]; simpl;
    destruct (q v); simpl; lia.
Qed.

Lemma count_split {A} (p : A -> bool) l :
  (length (List.filter p l) + length (List.filter (fun v => negb (p v)) l))%nat = length l.
Proof. induction l as [|v l IH]; [reflexivity|]; simpl; destruct (p v); simpl; lia. Qed.

Lemma intersection_sym X Y :
  ForallOrdPairs (fun a b => value_eqb a b = false) X ->
  ForallOrdPairs (fun a b => value_eqb a b = false) Y ->
  length (List.filter (fun v => memv v Y) X) = length (List.filter (fun v => memv v X) Y).
Proof.
  intros HX HY; induction HX as [|a X Ha _ IH]; simpl.
  - rewrite filter_none; [reflexivity | intros; reflexivity].
  - erewrite (List.filter_ext (fun v => memv v (a :: X))) by (intro; apply memv_cons).
    rewrite count_orb.
    2: { intros v _ E; apply not_true_iff_false; intro F.
         unfold memv in F; apply existsb_exists in F as [w [Hw F]].
         rewrite List.Forall_forall in Ha; pose proof (Ha w Hw) as G.
         rewrite (value_eqb_trans a v w) in G; [discriminate | | exact F].
         rewrite value_eqb_sym; exact E. }
    pose proof (count_eqv Y a HY) as C.
    destruct (memv a Y); simpl length; lia.
Qed.

Lemma uniq_acc_count acc Y :
  ForallOrdPairs (fun a b => value_eqb a b = false) Y ->
  length (uniq_acc acc Y) = (length acc + length (List.filter (fun v => negb (memv v acc)) Y))%nat.
Proof.
  intro HY; revert acc; induction HY as [|y Y Hy _ IH]; intro acc; simpl; [lia|].
  unfold uniq_acc in *; simpl; unfold uniq_step at 2.
  destruct (memv y acc) eqn:E; simpl; [apply IH|].
  rewrite IH, length_app; simpl.
  rewrite (List.filter_ext_in _ (fun v => negb (memv v acc))); [lia|].
  intros v Hv; rewrite memv_app; simpl.
  rewrite List.Forall_forall in Hy; rewrite value_eqb_sym, (Hy v Hv).
  destruct (memv v acc); reflexivity.
Qed.

Lemma union_count sx Y :
  ForallOrdPairs (fun a b => value_eqb a b = false) Y ->
  (length (unique (unique sx ++ Y)) + length (List.filter (fun v => memv v (unique sx)) Y))%nat
  = (length (unique sx) + length Y)%nat.
Proof.
  intro HY; unfold unique at 1; rewrite uniq_acc_app.
  change (uniq_acc [] (unique sx)) with (unique (unique sx)); rewrite unique_idem.
  rewrite uniq_acc_count by exact HY.
  pose proof (count_split (fun v => memv v (unique sx)) Y); lia.
Qed.

(** X15.  The Jaccard distance is symmetric: intersection and union of
    the two sets of distinct non-missing values (numbers compared by
    value) do not depend on the order of the columns. *)
Theorem jaccard_distance_symmetric (x y : column) :
  jaccard_distance x y = jaccard_distance y x.
Proof.
  unfold jaccard_distance.
  pose proof (unique_pairs (vals (dropna x))) as PX.
  pose proof (unique_pairs (vals (dropna y))) as PY.
  pose proof (union_count (vals (dropna x)) _ PY) as U1.
  pose proof (union_count (vals (dropna y)) _ PX) as U2.
  rewrite (intersection_sym _ _ PX PY) in *.
  set (X := unique (vals (dropna x))) in *; set (Y := unique (vals (dropna y))) in *.
  assert (E : length (unique (X ++ Y)) = length (unique (Y ++ X))) by lia.
  rewrite andb_comm, E; reflexivity.
Qed.

